(** * apathy: path manipulation (path.hpp), POSIX build

    A shallow embedding of [apathy::Path] as it is compiled when [_WIN32]
    is not defined: the separator is ['/'], a path is absolute when it
    starts with the separator, and [sanitize] prepends the separator to
    absolute paths.

    A [std::string] is a list of characters; a [Path] and a [Segment] are
    the one-field structs of the header.  Member functions that mutate
    [*this] and return it are functions from the old value to the new one.
    The operating system (stat, getcwd, readdir, rmdir, unlink) is an
    interface the directory operations are written against.  Module
    [Win32] holds [split] and [sanitize] as the _WIN32 build compiles
    them. *)

From Stdlib Require Import List Ascii String Bool Arith Lia Permutation.
Import ListNotations.
Local Open Scope list_scope.
Local Open Scope bool_scope.

(** ** std::string *)

Definition std_string : Type := list ascii.

Module StdString.

(** [a == b] on [std::string]. *)
Fixpoint eqb (a b : std_string) : bool :=
  match a, b with
  | [], [] => true
  | x :: a', y :: b' => Ascii.eqb x y && eqb a' b'
  | _, _ => false
  end.

(** [s.size()], also [s.length()]. *)
Definition size (s : std_string) : nat := List.length s.

(** [s[i]]; every use in the header is guarded by a size test. *)
Definition at_ (s : std_string) (i : nat) : ascii := nth i s Ascii.zero.

(** [s.push_back(c)]. *)
Definition push_back (s : std_string) (c : ascii) : std_string := s ++ [c].

(** [s.find_last_not_of(c)]: the greatest index whose character differs
    from [c]; [None] is [std::string::npos]. *)
Fixpoint find_last_not_of (s : std_string) (c : ascii) : option nat :=
  match s with
  | [] => None
  | x :: r =>
      match find_last_not_of r c with
      | Some i => Some (S i)
      | None => if Ascii.eqb x c then None else Some 0
      end
  end.

(** [s.erase(pos, n)] for [pos <= s.size()]: drops [min n (size - pos)]
    characters from [pos] on.  (Beyond the size the call throws; [trim],
    its only caller, passes [p + 1] with [p < size], see
    [find_last_not_of_lt].) *)
Definition erase (s : std_string) (pos n : nat) : std_string :=
  firstn pos s ++ skipn (pos + n) s.

(** [s.c_str()] as the callee reads it: up to the first NUL. *)
Fixpoint c_str (s : std_string) : std_string :=
  match s with
  | [] => []
  | c :: r => if Ascii.eqb c Ascii.zero then [] else c :: c_str r
  end.

(** [s.rfind(c)]: the greatest index holding [c]; [None] is
    [std::string::npos]. *)
Fixpoint rfind (s : std_string) (c : ascii) : option nat :=
  match s with
  | [] => None
  | x :: r =>
      match rfind r c with
      | Some i => Some (S i)
      | None => if Ascii.eqb x c then Some 0 else None
      end
  end.

(** [s.substr(pos)] and [s.substr(pos, n)] for [pos <= s.size()] (beyond
    the size the call throws; the header calls it with [pos] at most the
    size, see [rfind_lt]). *)
Definition substr_from (s : std_string) (pos : nat) : std_string := skipn pos s.
Definition substr (s : std_string) (pos n : nat) : std_string := firstn n (skipn pos s).

(** A string literal as a [std::string]. *)
Definition lit (s : string) : std_string := list_ascii_of_string s.

End StdString.

Notation "'str' s" := (StdString.lit s%string) (at level 9, s at level 0, only parsing).

(** ** The header's constants and structs *)

Definition separator : ascii := "/"%char.

Record Segment : Type := mkSegment { segment : std_string }.

Record Path : Type := mkPath { path : std_string }.

(** [Path(const std::string&)] at a literal, and [Path::string()] read back
    as a literal. *)
Definition Path_of (s : string) : Path := mkPath (StdString.lit s).
Definition Path_string (p : Path) : string := string_of_list_ascii (path p).

(** [operator==]: the raw strings are compared. *)
Definition Path_eqb (a b : Path) : bool := StdString.eqb (path a) (path b).

(** ** Type tests *)

Definition is_absolute (p : Path) : bool :=
  negb (StdString.size (path p) =? 0)
  && Ascii.eqb (StdString.at_ (path p) 0) separator.

Definition trailing_slash (p : Path) : bool :=
  negb (StdString.size (path p) =? 0)
  && Ascii.eqb (StdString.at_ (path p) (StdString.size (path p) - 1)) separator.

(** ** Manipulators *)

Definition trim (p : Path) : Path :=
  if StdString.size (path p) =? 0 then p
  else
    match StdString.find_last_not_of (path p) separator with
    | Some i => mkPath (StdString.erase (path p) (i + 1) (StdString.size (path p)))
    | None => mkPath []
    end.

Definition directory (p : Path) : Path :=
  mkPath (StdString.push_back (path (trim p)) separator).

(** [p.append(segment)] for a [segment] held in another object than [p]
    (a copy, a temporary, a different variable); [append_to] below covers
    the call whose argument is the object itself. *)
Definition append (p seg : Path) : Path :=
  let p1 := if negb (trailing_slash p)
            then mkPath (StdString.push_back (path p) separator)
            else p in
  mkPath (path p1 ++ path seg).

(** [operator<<] and [operator+] both go through [append]; [operator+]
    works on a copy, which is all a function does here. *)
Definition op_shl (p seg : Path) : Path := append p seg.
Definition op_plus (p seg : Path) : Path := append (mkPath (path p)) seg.

(** [Path::join(const Path&, const Path&)]. *)
Definition join2 (a b : Path) : Path := append a b.

Definition relative (p rel : Path) : Path :=
  if negb (is_absolute rel) then append p rel else rel.

(** ** Arguments passed by reference

    [append], [operator<<] and [relative] take their argument as
    [const Path&], so it can be the object the call is made on.
    [append] pushes the separator onto [path] before it reads
    [segment.path]; when [segment] is [*this] it reads the path with
    the separator already pushed. *)

Inductive operand : Type :=
| Other (segment : Path)
| This.

Definition append_to (p : Path) (segment : operand) : Path :=
  let p1 := if negb (trailing_slash p)
            then mkPath (StdString.push_back (path p) separator)
            else p in
  let segment_path := match segment with
                      | Other s => path s
                      | This => path p1
                      end in
  mkPath (path p1 ++ segment_path).

Definition op_shl_to (p : Path) (segment : operand) : Path := append_to p segment.

(** With [rel] the object itself and absolute, [operator=(rel)] is a
    self-assignment. *)
Definition relative_to (p : Path) (rel : operand) : Path :=
  match rel with
  | Other r => if negb (is_absolute r) then append_to p (Other r) else r
  | This => if negb (is_absolute p) then append_to p This else p
  end.

(** ** Name parts *)

Definition filename (p : Path) : std_string :=
  match StdString.rfind (path p) separator with
  | Some pos => StdString.substr_from (path p) (pos + 1)
  | None => []
  end.

Definition extension (p : Path) : std_string :=
  let name := filename p in
  match StdString.rfind name "."%char with
  | Some pos => StdString.substr_from name (pos + 1)
  | None => []
  end.

Definition stem (p : Path) : Path :=
  let sep_pos := StdString.rfind (path p) separator in
  let dot_pos := StdString.rfind (path p) "."%char in
  match dot_pos with
  | None => p
  | Some dot =>
      if match sep_pos with
         | None => true
         | Some sep => sep <? dot
         end
      then mkPath (StdString.substr (path p) 0 dot)
      else p
  end.

(** ** Segments *)

(** The characters [std::getline(stream, s, separator)] extracts from a
    stream holding [stream]: the segment read and what is left.  The
    delimiter is extracted and dropped; the end of the stream stops the
    read too. *)
Fixpoint getline_chars (stream : std_string) : std_string * std_string :=
  match stream with
  | [] => ([], [])
  | c :: rest =>
      if Ascii.eqb c separator then ([], rest)
      else let '(s, rest') := getline_chars rest in (c :: s, rest')
  end.

(** [operator>>(std::istream&, Segment&)].  [None] is a failed read:
    [getline] sets [failbit] when it extracts nothing at all, which is the
    case exactly when the stream is exhausted (after a read that ran into
    the end, [eofbit] is set and nothing is left either). *)
Definition getline (stream : std_string) : option (Segment * std_string) :=
  match stream with
  | [] => None
  | _ :: _ => let '(s, rest) := getline_chars stream in Some (mkSegment s, rest)
  end.

(** [std::vector<Segment> results(start, end)] over istream iterators:
    read until a read fails.  Every successful read consumes a character,
    so [fuel] at the length of the stream is never used up
    ([read_segments_fuel]). *)
Fixpoint read_segments (fuel : nat) (stream : std_string) : list Segment :=
  match fuel with
  | 0 => []
  | S fuel' =>
      match getline stream with
      | None => []
      | Some (s, rest) => s :: read_segments fuel' rest
      end
  end.

Definition split (p : Path) : list Segment :=
  let results := read_segments (StdString.size (path p)) (path p) in
  if trailing_slash p then results ++ [mkSegment []] else results.

(** [Path::join(const std::vector<Segment>&)]. *)
Fixpoint join_string (segments : list Segment) : std_string :=
  match segments with
  | [] => []
  | s :: rest =>
      segment s ++ (match rest with [] => [] | _ :: _ => [separator] end)
                ++ join_string rest
  end.

Definition join (segments : list Segment) : Path := mkPath (join_string segments).

(** ** sanitize *)

(** [pruned.size() && pruned.back().segment != ".."]. *)
Definition back_is_not_dotdot (pruned : list Segment) : bool :=
  negb (List.length pruned =? 0)
  && negb (StdString.eqb (segment (last pruned (mkSegment []))) (str "..")).

(** One iteration of the loop over [segments]; [pruned] is the vector
    being built ([push_back] appends, [pop_back] drops the last). *)
Definition sanitize_step (relative : bool) (pruned : list Segment) (s : Segment)
  : list Segment :=
  if (StdString.size (segment s) =? 0) || StdString.eqb (segment s) (str ".")
  then pruned
  else if StdString.eqb (segment s) (str "..") then
    if relative then
      if back_is_not_dotdot pruned then removelast pruned
      else pruned ++ [s]
    else if negb (List.length pruned =? 0) then removelast pruned
    else pruned
  else pruned ++ [s].

Definition prune (relative : bool) (segments : list Segment) : list Segment :=
  fold_left (sanitize_step relative) segments [].

Definition sanitize (p : Path) : Path :=
  let segments := split p in
  let relative := negb (is_absolute p) in
  let pruned := prune relative segments in
  let was_directory := trailing_slash p in
  if negb relative then
    let p1 := mkPath (separator :: path (join pruned)) in
    if was_directory then directory p1 else p1
  else
    let p1 := mkPath (path (join pruned)) in
    if negb (StdString.size (path p1) =? 0) && was_directory
    then directory p1
    else p1.

(** ** up and parent *)

Definition up (p : Path) : Path :=
  if StdString.size (path p) =? 0 then directory (mkPath (str ".."))
  else
    let p1 := sanitize (append p (Path_of "..")) in
    if StdString.size (path p1) =? 0 then p1 else directory p1.

Definition parent (p : Path) : Path := up (mkPath (path p)).

(** ** The operating system

    What the directory operations ask of the system: each call is a
    function of the filesystem state [FS]; the two removing calls return
    the state they leave behind. *)

Inductive file_type : Type := S_IFREG | S_IFDIR | S_IFOTHER.

Class OS (FS : Type) : Type := {
  (** [getcwd(NULL, 0)]; [None] is [NULL]. *)
  os_getcwd : FS -> option std_string;
  (** [stat(path, &buf)]; [None] when it does not return 0, else the file
      type in [buf.st_mode]. *)
  os_stat : FS -> std_string -> option file_type;
  (** [opendir] then [readdir] until [NULL]: every [d_name], ["."] and
      [".."] among them; [None] when [opendir] returns [NULL]. *)
  os_readdir : FS -> std_string -> option (list std_string);
  (** [rmdir(path) == 0] and [unlink(path) == 0]. *)
  os_rmdir : FS -> std_string -> bool * FS;
  os_unlink : FS -> std_string -> bool * FS
}.

Section DirectoryTree.

Context {FS : Type} `{OS FS}.

(** [std::sort(first, last, comp)]: the order it leaves elements in that
    [comp] does not tell apart is the library's choice. *)
Variable std_sort : (Path -> Path -> bool) -> list Path -> list Path.

Definition cwd (fs : FS) : Path :=
  let p := match os_getcwd fs with
           | Some buf => mkPath buf
           | None => mkPath []
           end in
  directory p.

Definition absolute (fs : FS) (p : Path) : Path :=
  if negb (is_absolute p) then join2 (cwd fs) (mkPath (path p)) else p.

Definition is_directory (fs : FS) (p : Path) : bool :=
  match os_stat fs (StdString.c_str (path p)) with
  | Some S_IFDIR => true
  | _ => false
  end.

Definition listdir (fs : FS) (p : Path) : list Path :=
  let base := absolute fs p in
  match os_readdir fs (StdString.c_str (path base)) with
  | None => []
  | Some entries =>
      fold_left
        (fun results d_name =>
           if StdString.eqb d_name (str "..") then results
           else if StdString.eqb d_name (str ".") then results
           else results ++ [relative base (mkPath d_name)])
        entries []
  end.

(** The [while] loop of [recursive_listdir]; [directories_to_visit] is
    used as a stack whose top is its last element.  [None]: the loop
    has not ended within [fuel] rounds. *)
Fixpoint recursive_listdir_loop (fuel : nat) (fs : FS)
    (results directories_to_visit : list Path) : option (list Path) :=
  match directories_to_visit with
  | [] => Some results
  | _ :: _ =>
      match fuel with
      | 0 => None
      | S fuel' =>
          let current_dir := last directories_to_visit (mkPath []) in
          let directories_to_visit := removelast directories_to_visit in
          let items := listdir fs current_dir in
          let '(results, directories_to_visit) :=
            fold_left
              (fun '(results, to_visit) item =>
                 (results ++ [item],
                  if is_directory fs item then to_visit ++ [item] else to_visit))
              items (results, directories_to_visit) in
          recursive_listdir_loop fuel' fs results directories_to_visit
      end
  end.

Definition recursive_listdir (fuel : nat) (fs : FS) (p : Path) : option (list Path) :=
  recursive_listdir_loop fuel fs [] [p].

(** The removal loop of [rmdirs].  [trace] records every removal call
    made, with its outcome, in call order. *)
Fixpoint rmdirs_loop (ignore_errors : bool) (contents : list Path) (fs : FS)
    (success : bool) (trace : list (Path * bool)) : bool * FS * list (Path * bool) :=
  match contents with
  | [] => (success, fs, trace)
  | p :: contents' =>
      let '(success, fs) :=
        if is_directory fs p
        then os_rmdir fs (StdString.c_str (path p))
        else os_unlink fs (StdString.c_str (path p)) in
      let trace := trace ++ [(p, success)] in
      if negb success && negb ignore_errors
      then (success, fs, trace)
      else rmdirs_loop ignore_errors contents' fs success trace
  end.

(** The entries [rmdirs] collects, in the order it removes them. *)
Definition rmdirs_contents (fuel : nat) (fs : FS) (p : Path) : option (list Path) :=
  match recursive_listdir fuel fs p with
  | None => None
  | Some contents =>
      let contents := contents ++ [p] in
      Some (std_sort
              (fun a b =>
                 StdString.size (path (absolute fs b))
                 <? StdString.size (path (absolute fs a)))
              contents)
  end.

Definition rmdirs (fuel : nat) (fs : FS) (p : Path) (ignore_errors : bool)
  : option (bool * FS * list (Path * bool)) :=
  match rmdirs_contents fuel fs p with
  | None => None
  | Some contents => Some (rmdirs_loop ignore_errors contents fs true [])
  end.

End DirectoryTree.

(** ** equivalent and makedirs *)

Inductive errno_t : Type := EEXIST | ENOENT | EOTHER.

Section MakeDirs.

Context {FS : Type} `{OS FS}.

(** [mkdir(path, mode)]: [None] when it returns 0, else the [errno] it
    sets (every value but [EEXIST] and [ENOENT] is [EOTHER]), and the
    filesystem it leaves. *)
Variable os_mkdir : FS -> std_string -> nat -> option errno_t * FS.

Definition equivalent (fs : FS) (p other : Path) : bool :=
  Path_eqb (sanitize (absolute fs (mkPath (path p))))
           (sanitize (absolute fs (mkPath (path other)))).

Definition makedir (fs : FS) (path : std_string) (mode : nat) : option errno_t * FS :=
  os_mkdir fs path mode.

(** [makedirs] calls itself on the parent; [None]: the calls are nested
    deeper than [fuel]. *)
Fixpoint makedirs (fuel : nat) (fs : FS) (p : Path) (mode : nat) : option (bool * FS) :=
  let abs := absolute fs (mkPath (path p)) in
  match makedir fs (StdString.c_str (path abs)) mode with
  | (None, fs) => Some (true, fs)
  | (Some EEXIST, fs) => Some (is_directory fs abs, fs)
  | (Some ENOENT, fs) =>
      match fuel with
      | 0 => None
      | S fuel' =>
          match makedirs fuel' fs (parent abs) mode with
          | None => None
          | Some (_, fs) =>
              match makedir fs (StdString.c_str (path abs)) mode with
              | (None, fs) => Some (true, fs)
              | (Some _, fs) => Some (false, fs)
              end
          end
      end
  | (Some EOTHER, fs) => Some (false, fs)
  end.

End MakeDirs.

(** ** When a recursive listing comes to an end

    [listing_ends fs d]: following directories down from [d] stops
    everywhere (no directory is met again below itself, as through a link
    back up the tree). *)

Inductive listing_ends {FS : Type} `{OS FS} (fs : FS) : Path -> Prop :=
| listing_ends_intro (d : Path) :
    (forall q, In q (listdir fs d) -> is_directory fs q = true -> listing_ends fs q) ->
    listing_ends fs d.

(** ** The _WIN32 build of the path functions

    The same functions as the header compiles them when [_WIN32] is
    defined: the separator is the backslash, the constructor turns
    every ['/'] into it, a path is absolute when its second character
    is [':'], and [sanitize] knows drive-letter segments. *)

Module Win32.

Definition windows_separator : ascii := "\"%char.
Definition windows_drive_separator : ascii := ":"%char.
Definition posix_separator : ascii := "/"%char.
Definition separator : ascii := windows_separator.

(** [Path(const std::string&)]: [std::replace] of the POSIX separator. *)
Definition Path_ctor (p : std_string) : Path :=
  mkPath (map (fun c => if Ascii.eqb c posix_separator then windows_separator else c) p).

Definition Path_of (s : string) : Path := Path_ctor (StdString.lit s).

Definition is_drive_letter (s : Segment) : bool :=
  (2 <=? StdString.size (segment s))
  && Ascii.eqb (StdString.at_ (segment s) 1) windows_drive_separator.

Definition is_absolute (p : Path) : bool :=
  (2 <=? StdString.size (path p))
  && Ascii.eqb (StdString.at_ (path p) 1) windows_drive_separator.

Definition trailing_slash (p : Path) : bool :=
  negb (StdString.size (path p) =? 0)
  && (Ascii.eqb (StdString.at_ (path p) (StdString.size (path p) - 1)) windows_separator
      || Ascii.eqb (StdString.at_ (path p) (StdString.size (path p) - 1)) posix_separator).

Definition trim (p : Path) : Path :=
  if StdString.size (path p) =? 0 then p
  else
    match StdString.find_last_not_of (path p) separator with
    | Some i => mkPath (StdString.erase (path p) (i + 1) (StdString.size (path p)))
    | None => mkPath []
    end.

Definition directory (p : Path) : Path :=
  mkPath (StdString.push_back (path (trim p)) separator).

Fixpoint getline_chars (stream : std_string) : std_string * std_string :=
  match stream with
  | [] => ([], [])
  | c :: rest =>
      if Ascii.eqb c separator then ([], rest)
      else let '(s, rest') := getline_chars rest in (c :: s, rest')
  end.

Definition getline (stream : std_string) : option (Segment * std_string) :=
  match stream with
  | [] => None
  | _ :: _ => let '(s, rest) := getline_chars stream in Some (mkSegment s, rest)
  end.

Fixpoint read_segments (fuel : nat) (stream : std_string) : list Segment :=
  match fuel with
  | 0 => []
  | S fuel' =>
      match getline stream with
      | None => []
      | Some (s, rest) => s :: read_segments fuel' rest
      end
  end.

Definition split (p : Path) : list Segment :=
  let results := read_segments (StdString.size (path p)) (path p) in
  if trailing_slash p then results ++ [mkSegment []] else results.

Fixpoint join_string (segments : list Segment) : std_string :=
  match segments with
  | [] => []
  | s :: rest =>
      segment s ++ (match rest with [] => [] | _ :: _ => [separator] end)
                ++ join_string rest
  end.

Definition join (segments : list Segment) : Path := Path_ctor (join_string segments).

(** One iteration of the loop of [sanitize], at index [pos]. *)
Definition sanitize_step (relative : bool) (pos : nat) (pruned : list Segment)
    (s : Segment) : list Segment :=
  if (StdString.size (segment s) =? 0) || StdString.eqb (segment s) (str ".")
  then pruned
  else if negb (pos =? 0) && is_drive_letter s then pruned
  else if StdString.eqb (segment s) (str "..") then
    if relative then
      if back_is_not_dotdot pruned then removelast pruned
      else pruned ++ [s]
    else if negb (List.length pruned =? 0) then
      if negb (is_drive_letter (last pruned (mkSegment []))) then removelast pruned
      else pruned
    else pruned
  else pruned ++ [s].

Fixpoint prune_from (relative : bool) (pos : nat) (segments pruned : list Segment)
  : list Segment :=
  match segments with
  | [] => pruned
  | s :: rest =>
      prune_from relative (S pos) rest (sanitize_step relative pos pruned s)
  end.

Definition sanitize (p : Path) : Path :=
  let segments := split p in
  let relative := negb (is_absolute p) in
  let pruned := prune_from relative 0 segments [] in
  let was_directory := trailing_slash p in
  if negb relative then
    let p1 := mkPath (path (join pruned)) in
    if was_directory then directory p1 else p1
  else
    let p1 := mkPath (path (join pruned)) in
    if negb (StdString.size (path p1) =? 0) && was_directory
    then directory p1
    else p1.

End Win32.

(** ** A small filesystem to run the directory operations on

    Entries are kept under their absolute names; a symbolic link holds an
    absolute target.  Names are looked up as given (no ["."], [".."] or
    doubled separators), after a leading symbolic link to a directory has
    been replaced by its target.  [stat] and [opendir] follow a link in
    the last component, [unlink] and [rmdir] do not. *)

Module ToyFS.

Inductive node : Type := File | Dir | Link (target : std_string).

Record fs : Type := mkFs { cwd_name : std_string; entries : list (std_string * node) }.

Fixpoint strip_prefix (pre q : std_string) : option std_string :=
  match pre, q with
  | [], _ => Some q
  | a :: pre', b :: q' => if Ascii.eqb a b then strip_prefix pre' q' else None
  | _ :: _, [] => None
  end.

Definition lookup (es : list (std_string * node)) (q : std_string) : option node :=
  option_map snd (find (fun e => StdString.eqb (fst e) q) es).

Definition remove (es : list (std_string * node)) (q : std_string)
  : list (std_string * node) :=
  filter (fun e => negb (StdString.eqb (fst e) q)) es.

(** A name relative to the working directory, made absolute. *)
Definition full (f : fs) (q : std_string) : std_string :=
  match q with
  | c :: _ => if Ascii.eqb c separator then q else cwd_name f ++ separator :: q
  | [] => q
  end.

Fixpoint rewrite_link (es : list (std_string * node)) (q : std_string)
  : option std_string :=
  match es with
  | [] => None
  | (n, Link t) :: es' =>
      match strip_prefix (n ++ [separator]) q with
      | Some rest => Some (t ++ separator :: rest)
      | None => rewrite_link es' q
      end
  | _ :: es' => rewrite_link es' q
  end.

Fixpoint resolve_dirs (fuel : nat) (es : list (std_string * node)) (q : std_string)
  : std_string :=
  match fuel with
  | 0 => q
  | S fuel' =>
      match rewrite_link es q with
      | Some q' => resolve_dirs fuel' es q'
      | None => q
      end
  end.

Definition symloop_max : nat := 8.

(** The entry a name denotes when a final link is followed. *)
Fixpoint follow (fuel : nat) (es : list (std_string * node)) (q : std_string)
  : option (std_string * node) :=
  match fuel with
  | 0 => None
  | S fuel' =>
      let q' := resolve_dirs symloop_max es q in
      match lookup es q' with
      | Some (Link t) => follow fuel' es t
      | Some n => Some (q', n)
      | None => None
      end
  end.

Definition children (es : list (std_string * node)) (d : std_string)
  : list std_string :=
  flat_map
    (fun e =>
       match strip_prefix (d ++ [separator]) (fst e) with
       | Some c => if existsb (Ascii.eqb separator) c then [] else [c]
       | None => []
       end)
    es.

Definition stat (f : fs) (q : std_string) : option file_type :=
  match follow symloop_max (entries f) (full f q) with
  | Some (_, Dir) => Some S_IFDIR
  | Some (_, File) => Some S_IFREG
  | _ => None
  end.

Definition readdir (f : fs) (q : std_string) : option (list std_string) :=
  match follow symloop_max (entries f) (full f q) with
  | Some (d, Dir) => Some (str "." :: str ".." :: children (entries f) d)
  | _ => None
  end.

Definition unlink (f : fs) (q : std_string) : bool * fs :=
  let q' := resolve_dirs symloop_max (entries f) (full f q) in
  match lookup (entries f) q' with
  | Some File | Some (Link _) => (true, mkFs (cwd_name f) (remove (entries f) q'))
  | _ => (false, f)
  end.

Definition rmdir (f : fs) (q : std_string) : bool * fs :=
  let q' := resolve_dirs symloop_max (entries f) (full f q) in
  match lookup (entries f) q' with
  | Some Dir =>
      match children (entries f) q' with
      | [] => (true, mkFs (cwd_name f) (remove (entries f) q'))
      | _ :: _ => (false, f)
      end
  | _ => (false, f)
  end.

#[global] Instance toy_os : OS fs := {
  os_getcwd f := Some (cwd_name f);
  os_stat := stat;
  os_readdir := readdir;
  os_rmdir := rmdir;
  os_unlink := unlink
}.

(** The directory a name lies in. *)
Definition dirname (q : std_string) : std_string :=
  match StdString.rfind q separator with
  | Some 0 => [separator]
  | Some i => firstn i q
  | None => []
  end.

(** [mkdir]: the root always exists; separators at the end of the name
    do not count; the directory the name lies in must exist. *)
Definition mkdir (f : fs) (q : std_string) (mode : nat) : option errno_t * fs :=
  match path (trim (mkPath (full f q))) with
  | [] => (Some EEXIST, f)
  | _ :: _ =>
      let q' := path (trim (mkPath (resolve_dirs symloop_max (entries f) (full f q)))) in
      match lookup (entries f) q' with
      | Some _ => (Some EEXIST, f)
      | None =>
          match (if StdString.eqb (dirname q') [separator] then Some Dir
                 else lookup (entries f) (dirname q')) with
          | Some Dir => (None, mkFs (cwd_name f) (entries f ++ [(q', Dir)]))
          | Some _ => (Some EOTHER, f)
          | None => (Some ENOENT, f)
          end
      end
  end.

(** An insertion sort to stand for [std::sort]. *)
Fixpoint insert (comp : Path -> Path -> bool) (x : Path) (l : list Path) : list Path :=
  match l with
  | [] => [x]
  | y :: l' => if comp x y then x :: l else y :: insert comp x l'
  end.

Definition sort (comp : Path -> Path -> bool) (l : list Path) : list Path :=
  fold_right (insert comp) [] l.

(** [/w/foo] holds the directory [real] with one file [x], and a link
    [l] to [real]; the working directory is [/w]. *)
Definition linked_tree : fs :=
  mkFs (str "/w")
       [ (str "/w", Dir);
         (str "/w/foo", Dir);
         (str "/w/foo/real", Dir);
         (str "/w/foo/real/x", File);
         (str "/w/foo/l", Link (str "/w/foo/real")) ].

End ToyFS.

(** ** Vocabulary of the statements below *)

Definition sep_free (s : std_string) : Prop := ~ In separator s.

(** A segment [join] and [split] agree on: not empty, no separator. *)
Definition clean (s : Segment) : Prop := segment s <> [] /\ sep_free (segment s).

Definition dotdot : Segment := mkSegment (str "..").

(** A segment the loop pushes as it is. *)
Definition normal (s : Segment) : Prop :=
  clean s /\ segment s <> str "." /\ segment s <> str "..".

(** What the loop builds: for an absolute path, segments that are none of
    [""], ["."], [".."]; for a relative path, such segments after a run of
    [".."]. *)
Definition canonical (relative : bool) (pruned : list Segment) : Prop :=
  exists k l,
    pruned = repeat dotdot k ++ l /\ Forall normal l /\ (relative = false -> k = 0).

(** The string [sanitize] assembles from the pruned segments: the
    separator in front when the path was absolute, the segments joined,
    and a separator after them when the path ended in one. *)
Definition render (abs dir : bool) (pruned : list Segment) : std_string :=
  (if abs then [separator] else [])
  ++ join_string pruned
  ++ (if dir && negb (List.length pruned =? 0) then [separator] else []).

(** The entry names [listdir] keeps. *)
Definition not_dot_entry (d_name : std_string) : bool :=
  negb (StdString.eqb d_name (str "..")) && negb (StdString.eqb d_name (str ".")).

(** ** Checks against the header's own tests (test.cpp) *)

Example test_split_relative :
  map segment (split (Path_of "foo/bar/baz")) = [str "foo"; str "bar"; str "baz"].
Proof. reflexivity. Qed.

Example test_split_sizes :
  List.length (split (Path_of "foo/bar/baz/")) = 4
  /\ List.length (split (Path_of "/foo/bar/baz/")) = 5.
Proof. split; reflexivity. Qed.

Example test_sanitize :
  map (fun s => Path_string (sanitize (Path_of s)))
      ["foo///bar/a/b/../c"; "../foo///bar/a/b/../c"; "../../a/b////c";
       "/../../a/b////c"; "/./././a/./b/../../c"; "././a/b/c/"]%string
  = ["foo/bar/a/c"; "../foo/bar/a/c"; "../../a/b/c"; "/a/b/c"; "/c"; "a/b/c/"]%string.
Proof. reflexivity. Qed.

Example test_append :
  Path_string (op_shl (op_shl (op_shl (op_shl (Path_of "/") (Path_of "hello"))
                                      (Path_of "how")) (Path_of "are")) (Path_of "you"))
  = "/hello/how/are/you"%string
  /\ Path_string (op_plus (Path_of "foo/bar") (Path_of "baz")) = "foo/bar/baz"%string.
Proof. split; reflexivity. Qed.

Example test_relative :
  Path_string (relative (Path_of "/hello/how/are/you") (Path_of "foo"))
  = "/hello/how/are/you/foo"%string
  /\ Path_string (relative (Path_of "/hello/how/are/you/") (Path_of "foo"))
     = "/hello/how/are/you/foo"%string
  /\ Path_string (relative (Path_of "/hello/how/are/you") (Path_of "/fine/thank/you"))
     = "/fine/thank/you"%string.
Proof. repeat split; reflexivity. Qed.

Example test_trim_directory :
  Path_string (trim (Path_of "/hello/how/are/you////")) = "/hello/how/are/you"%string
  /\ Path_string (directory (Path_of "/hello/how/are/you//")) = "/hello/how/are/you/"%string
  /\ Path_string (directory (Path_of "/hello/how/are/you")) = "/hello/how/are/you/"%string.
Proof. repeat split; reflexivity. Qed.

Example test_parent :
  map (fun s => Path_string (parent (Path_of s)))
      ["/hello/how/are/you"; "/"; "foo/../bar/baz/a/../"]%string
  = ["/hello/how/are/"; "/"; "bar/"]%string
  /\ Path_string (parent (parent (Path_of "foo/bar"))) = ""%string.
Proof. split; reflexivity. Qed.

(** ** std::string facts *)

Lemma StdString_eqb_eq (a b : std_string) : StdString.eqb a b = true <-> a = b.
Proof.
  revert b; induction a as [|x a IH]; intros [|y b]; simpl; split;
    try congruence; try reflexivity.
  - rewrite andb_true_iff, Ascii.eqb_eq, IH. intros [-> ->]. reflexivity.
  - intros E. injection E as -> ->.
    rewrite andb_true_iff, Ascii.eqb_eq, IH. split; reflexivity.
Qed.


Lemma StdString_eqb_neq (a b : std_string) : StdString.eqb a b = false <-> a <> b.
Proof.
  rewrite <- StdString_eqb_eq. destruct (StdString.eqb a b); split; congruence.
Qed.

Lemma size_zero_iff (s : std_string) : (StdString.size s =? 0) = true <-> s = [].
Proof.
  unfold StdString.size. rewrite Nat.eqb_eq. split.
  - apply length_zero_iff_nil.
  - intros ->. reflexivity.
Qed.

Lemma at_last (x : std_string) (c : ascii) :
  StdString.at_ (x ++ [c]) (StdString.size (x ++ [c]) - 1) = c.
Proof.
  unfold StdString.at_, StdString.size. rewrite length_app. simpl.
  replace (List.length x + 1 - 1) with (List.length x) by lia.
  apply nth_middle.
Qed.

(** The index [find_last_not_of] returns is inside the string, so the
    [erase] of [trim] is always in range. *)
Lemma find_last_not_of_lt (s : std_string) (c : ascii) (i : nat) :
  StdString.find_last_not_of s c = Some i -> i < StdString.size s.
Proof.
  unfold StdString.size. revert i; induction s as [|x r IH]; simpl; intros i.
  - discriminate.
  - destruct (StdString.find_last_not_of r c) as [j|].
    + intros E. injection E as <-. specialize (IH j eq_refl). lia.
    + destruct (Ascii.eqb x c); [discriminate|].
      intros E. injection E as <-. lia.
Qed.

Lemma find_last_not_of_repeat (c : ascii) (n : nat) :
  StdString.find_last_not_of (repeat c n) c = None.
Proof.
  induction n as [|n IH]; simpl; [reflexivity|].
  rewrite IH, Ascii.eqb_refl. reflexivity.
Qed.

Lemma find_last_not_of_snoc (x : std_string) (c d : ascii) :
  d <> c -> StdString.find_last_not_of (x ++ [d]) c = Some (List.length x).
Proof.
  intros Hd. induction x as [|y x IH]; simpl.
  - apply Ascii.eqb_neq in Hd. rewrite Hd. reflexivity.
  - rewrite IH. reflexivity.
Qed.

Lemma erase_to_end (s : std_string) :
  StdString.erase s (StdString.size s) (StdString.size s) = s.
Proof.
  unfold StdString.erase, StdString.size.
  rewrite firstn_all, skipn_all2 by lia. apply app_nil_r.
Qed.

(** ** Type tests and trim on strings of a known shape *)

Lemma trailing_slash_snoc (x : std_string) (c : ascii) :
  trailing_slash (mkPath (x ++ [c])) = Ascii.eqb c separator.
Proof.
  unfold trailing_slash; cbn [path]. rewrite at_last.
  destruct (StdString.size (x ++ [c]) =? 0) eqn:E; [|reflexivity].
  apply size_zero_iff in E. destruct x; discriminate.
Qed.

Lemma is_absolute_cons (c : ascii) (x : std_string) :
  is_absolute (mkPath (c :: x)) = Ascii.eqb c separator.
Proof. reflexivity. Qed.

Lemma trim_snoc (x : std_string) (c : ascii) :
  c <> separator -> trim (mkPath (x ++ [c])) = mkPath (x ++ [c]).
Proof.
  intros Hc. unfold trim; cbn [path].
  destruct (StdString.size (x ++ [c]) =? 0) eqn:E; [reflexivity|].
  rewrite (find_last_not_of_snoc x separator c Hc).
  replace (List.length x + 1) with (StdString.size (x ++ [c]))
    by (unfold StdString.size; rewrite length_app; reflexivity).
  rewrite erase_to_end. reflexivity.
Qed.

Lemma directory_snoc (x : std_string) (c : ascii) :
  c <> separator ->
  directory (mkPath (x ++ [c])) = mkPath ((x ++ [c]) ++ [separator]).
Proof. intros Hc. unfold directory. rewrite trim_snoc by assumption. reflexivity. Qed.

Lemma trim_separators (n : nat) : trim (mkPath (repeat separator n)) = mkPath [].
Proof.
  unfold trim; cbn [path]. rewrite find_last_not_of_repeat.
  destruct n; reflexivity.
Qed.

(** ** Reading segments off a stream *)

Lemma getline_chars_rest_length (stream : std_string) :
  List.length (snd (getline_chars stream)) <= pred (List.length stream).
Proof.
  induction stream as [|c rest IH]; simpl; [lia|].
  destruct (Ascii.eqb c separator); simpl; [lia|].
  destruct (getline_chars rest) as [s rest']. simpl in *. lia.
Qed.

Lemma getline_chars_sep_free (stream : std_string) :
  sep_free (fst (getline_chars stream)).
Proof.
  unfold sep_free. induction stream as [|c rest IH]; simpl; [tauto|].
  destruct (Ascii.eqb c separator) eqn:E; simpl; [tauto|].
  destruct (getline_chars rest) as [s rest']. simpl in *.
  apply Ascii.eqb_neq in E. intros [H|H]; [congruence|tauto].
Qed.

Lemma getline_chars_to_separator (x rest : std_string) :
  sep_free x -> getline_chars (x ++ separator :: rest) = (x, rest).
Proof.
  unfold sep_free. induction x as [|c x IH]; simpl; intros Hx.
  - reflexivity.
  - destruct (Ascii.eqb c separator) eqn:E.
    + apply Ascii.eqb_eq in E. tauto.
    + rewrite IH by tauto. reflexivity.
Qed.

Lemma getline_chars_to_end (x : std_string) :
  sep_free x -> getline_chars x = (x, []).
Proof.
  unfold sep_free. induction x as [|c x IH]; simpl; intros Hx.
  - reflexivity.
  - destruct (Ascii.eqb c separator) eqn:E.
    + apply Ascii.eqb_eq in E. tauto.
    + rewrite IH by tauto. reflexivity.
Qed.

(** Fuel beyond the length of the stream changes nothing: [split] never
    stops for lack of it. *)
Lemma read_segments_fuel (n m : nat) (stream : std_string) :
  List.length stream <= n -> List.length stream <= m ->
  read_segments n stream = read_segments m stream.
Proof.
  revert m stream; induction n as [|n IH]; intros m stream Hn Hm.
  - destruct stream; [|simpl in Hn; lia]. destruct m; reflexivity.
  - destruct m as [|m].
    + destruct stream; [reflexivity|simpl in Hm; lia].
    + destruct stream as [|c rest]; [reflexivity|].
      cbn [read_segments getline].
      pose proof (getline_chars_rest_length (c :: rest)) as Hl.
      destruct (getline_chars (c :: rest)) as [s rest'].
      simpl in Hl, Hn, Hm. f_equal. apply IH; lia.
Qed.

Lemma read_segments_nil (n : nat) : read_segments n [] = [].
Proof. destruct n; reflexivity. Qed.

Lemma read_segments_separator (n : nat) (stream : std_string) :
  read_segments (S n) (separator :: stream) = mkSegment [] :: read_segments n stream.
Proof. reflexivity. Qed.

Lemma read_segments_sep_free (n : nat) (stream : std_string) :
  Forall (fun s => sep_free (segment s)) (read_segments n stream).
Proof.
  revert stream; induction n as [|n IH]; intros stream; simpl; [constructor|].
  destruct stream as [|c rest]; simpl; [constructor|].
  pose proof (getline_chars_sep_free (c :: rest)) as Hs.
  change (getline_chars (c :: rest))
    with (if Ascii.eqb c separator then ([], rest)
          else let '(s, rest') := getline_chars rest in (c :: s, rest')) in Hs.
  destruct (Ascii.eqb c separator).
  - constructor; [exact Hs|apply IH].
  - destruct (getline_chars rest) as [s rest']. constructor; [exact Hs|apply IH].
Qed.

(** ** join, and reading a joined string back *)

Lemma join_string_cons2 (s s' : Segment) (l : list Segment) :
  join_string (s :: s' :: l) = segment s ++ separator :: join_string (s' :: l).
Proof. reflexivity. Qed.

Lemma join_string_single (s : Segment) : join_string [s] = segment s.
Proof. simpl. apply app_nil_r. Qed.

(** A joined list of clean segments starts and ends with a character
    that is not the separator. *)
Lemma join_string_head (l : list Segment) :
  Forall clean l -> l <> [] ->
  exists c x, join_string l = c :: x /\ c <> separator.
Proof.
  intros Hl Hne. destruct l as [|s l]; [congruence|].
  apply Forall_inv in Hl. destruct Hl as [Hs Hf].
  destruct s as [[|c x]]; cbn [segment] in *; [congruence|].
  exists c. eexists. split; [reflexivity|].
  intros ->. apply Hf. left. reflexivity.
Qed.

Lemma clean_last (s : Segment) :
  clean s -> exists x c, segment s = x ++ [c] /\ c <> separator.
Proof.
  intros [Hs Hf]. destruct (exists_last Hs) as [x [c E]].
  exists x, c. split; [exact E|].
  intros ->. apply Hf. rewrite E. apply in_or_app. right. left. reflexivity.
Qed.

Lemma join_string_last (l : list Segment) :
  Forall clean l -> l <> [] ->
  exists x c, join_string l = x ++ [c] /\ c <> separator.
Proof.
  induction l as [|s l IH]; intros Hl Hne; [congruence|].
  inversion Hl as [|? ? Hs Hl']; subst.
  destruct l as [|s' l].
  - rewrite join_string_single. apply clean_last. exact Hs.
  - destruct (IH Hl' ltac:(discriminate)) as [x [c [E Hc]]].
    exists (segment s ++ separator :: x), c. split; [|exact Hc].
    rewrite join_string_cons2, E, <- app_assoc. reflexivity.
Qed.

(** Reading back a joined list of clean segments, with or without a
    separator after it, gives the list. *)
Lemma read_segments_join (l : list Segment) (tail : std_string) (n : nat) :
  Forall clean l ->
  tail = [] \/ (tail = [separator] /\ l <> []) ->
  List.length (join_string l ++ tail) <= n ->
  read_segments n (join_string l ++ tail) = l.
Proof.
  revert n; induction l as [|s l IH]; intros n Hl Ht Hn.
  - destruct Ht as [->|[_ Hne]]; [|congruence]. apply read_segments_nil.
  - inversion Hl as [|? ? Hs Hl']; subst. destruct Hs as [Hs Hf].
    destruct s as [x]; cbn [segment] in *.
    destruct l as [|s' l].
    + rewrite join_string_single in *. cbn [segment] in *.
      destruct n as [|n]; [destruct x; [congruence|simpl in Hn; lia]|].
      cbn [read_segments]. unfold getline.
      destruct (x ++ tail) as [|c r] eqn:E; [destruct x; [congruence|discriminate]|].
      rewrite <- E.
      destruct Ht as [->|[-> _]].
      * rewrite app_nil_r, getline_chars_to_end by assumption.
        rewrite read_segments_nil. reflexivity.
      * rewrite getline_chars_to_separator by assumption.
        rewrite read_segments_nil. reflexivity.
    + rewrite join_string_cons2 in *. cbn [segment] in *.
      rewrite <- app_assoc in *. cbn [app] in *.
      assert (Hn' : S (List.length (join_string (s' :: l) ++ tail)) <= n)
        by (rewrite length_app in Hn; cbn [List.length] in Hn; lia).
      destruct n as [|n]; [lia|].
      cbn [read_segments]. unfold getline.
      destruct (x ++ separator :: join_string (s' :: l) ++ tail) as [|c r] eqn:E;
        [destruct x; discriminate|].
      rewrite <- E. rewrite getline_chars_to_separator by assumption.
      f_equal. apply IH.
      * exact Hl'.
      * destruct Ht as [->|[-> _]]; [left; reflexivity|right; split; [reflexivity|discriminate]].
      * lia.
Qed.

(** ** The pruning loop *)

Lemma snoc_cases {A : Type} (l : list A) : l = [] \/ exists l' x, l = l' ++ [x].
Proof.
  induction l as [|x l' _] using rev_ind; [left; reflexivity|right; eauto].
Qed.

Lemma dotdot_clean : clean dotdot.
Proof.
  split; [discriminate|]. unfold sep_free. simpl.
  intros [H|[H|[]]]; discriminate.
Qed.

Lemma canonical_clean (relative : bool) (pruned : list Segment) :
  canonical relative pruned -> Forall clean pruned.
Proof.
  intros [k [l [-> [Hl _]]]]. apply Forall_app. split.
  - apply Forall_forall. intros s Hs. apply repeat_spec in Hs. subst.
    apply dotdot_clean.
  - eapply Forall_impl; [|exact Hl]. intros s [Hs _]. exact Hs.
Qed.

Lemma sanitize_step_skip (relative : bool) (pruned : list Segment) (s : Segment) :
  segment s = [] \/ segment s = str "." ->
  sanitize_step relative pruned s = pruned.
Proof.
  intros [E|E]; unfold sanitize_step; rewrite E; reflexivity.
Qed.

Lemma sanitize_step_normal (relative : bool) (pruned : list Segment) (s : Segment) :
  normal s -> sanitize_step relative pruned s = pruned ++ [s].
Proof.
  intros [[Hne _] [Hd Hdd]]. unfold sanitize_step.
  destruct (StdString.size (segment s) =? 0) eqn:E0;
    [apply size_zero_iff in E0; congruence|].
  apply StdString_eqb_neq in Hd, Hdd. rewrite Hd, Hdd. reflexivity.
Qed.

Lemma sanitize_step_dotdot_relative (pruned : list Segment) (s : Segment) :
  segment s = str ".." ->
  sanitize_step true pruned s
  = if back_is_not_dotdot pruned then removelast pruned else pruned ++ [s].
Proof. intros E. unfold sanitize_step. rewrite E. reflexivity. Qed.

Lemma sanitize_step_dotdot_absolute (pruned : list Segment) (s : Segment) :
  segment s = str ".." -> sanitize_step false pruned s = removelast pruned.
Proof.
  intros E. unfold sanitize_step. rewrite E. simpl.
  destruct pruned; reflexivity.
Qed.

(** Each segment is of exactly one of the three kinds the loop tells
    apart. *)
Lemma segment_cases (s : Segment) :
  sep_free (segment s) ->
  (segment s = [] \/ segment s = str ".") \/ segment s = str ".." \/ normal s.
Proof.
  intros Hf.
  destruct (StdString.eqb (segment s) []) eqn:E0;
    [apply StdString_eqb_eq in E0; tauto|].
  destruct (StdString.eqb (segment s) (str ".")) eqn:E1;
    [apply StdString_eqb_eq in E1; tauto|].
  destruct (StdString.eqb (segment s) (str "..")) eqn:E2;
    [apply StdString_eqb_eq in E2; tauto|].
  apply StdString_eqb_neq in E0, E1, E2.
  right. right. repeat split; assumption.
Qed.

Lemma back_is_not_dotdot_snoc (pruned : list Segment) (s : Segment) :
  back_is_not_dotdot (pruned ++ [s]) = negb (StdString.eqb (segment s) (str "..")).
Proof.
  unfold back_is_not_dotdot. rewrite last_last, length_app. simpl.
  replace (List.length pruned + 1 =? 0) with false; [reflexivity|].
  symmetry. apply Nat.eqb_neq. lia.
Qed.

Lemma back_is_not_dotdot_repeat (k : nat) : back_is_not_dotdot (repeat dotdot k) = false.
Proof.
  destruct k as [|k]; [reflexivity|].
  cbn [repeat]. rewrite repeat_cons, back_is_not_dotdot_snoc. reflexivity.
Qed.

Lemma sanitize_step_canonical (relative : bool) (pruned : list Segment) (s : Segment) :
  sep_free (segment s) ->
  canonical relative pruned ->
  canonical relative (sanitize_step relative pruned s).
Proof.
  intros Hf [k [l [-> [Hl Hk]]]].
  destruct (segment_cases s Hf) as [Hskip|[Hdd|Hn]].
  - rewrite sanitize_step_skip by assumption. exists k, l. auto.
  - destruct (snoc_cases l) as [->|[l' [x ->]]].
    + rewrite app_nil_r. destruct relative.
      * rewrite sanitize_step_dotdot_relative, back_is_not_dotdot_repeat by assumption.
        exists (S k), []. repeat split; [|constructor|discriminate].
        rewrite app_nil_r. cbn [repeat]. rewrite repeat_cons.
        destruct s as [x]. cbn [segment] in Hdd. subst. reflexivity.
      * rewrite sanitize_step_dotdot_absolute by assumption.
        rewrite (Hk eq_refl). exists 0, []. repeat split; auto.
    + apply Forall_app in Hl. destruct Hl as [Hl' Hx].
      apply Forall_inv in Hx.
      assert (E : sanitize_step relative (repeat dotdot k ++ l' ++ [x]) s
                  = repeat dotdot k ++ l').
      { rewrite app_assoc. destruct relative.
        - rewrite sanitize_step_dotdot_relative, back_is_not_dotdot_snoc by assumption.
          destruct Hx as [_ [_ Hx]]. apply StdString_eqb_neq in Hx. rewrite Hx.
          cbn [negb]. apply removelast_last.
        - rewrite sanitize_step_dotdot_absolute by assumption. apply removelast_last. }
      rewrite E. exists k, l'. auto.
  - rewrite sanitize_step_normal by assumption. exists k, (l ++ [s]).
    repeat split; [symmetry; apply app_assoc| |exact Hk].
    apply Forall_app. split; [exact Hl|]. constructor; [exact Hn|constructor].
Qed.

Lemma fold_sanitize_step_canonical (relative : bool) (segments pruned : list Segment) :
  Forall (fun s => sep_free (segment s)) segments ->
  canonical relative pruned ->
  canonical relative (fold_left (sanitize_step relative) segments pruned).
Proof.
  revert pruned; induction segments as [|s segments IH]; intros pruned Hs Hc.
  - exact Hc.
  - inversion Hs; subst. simpl. apply IH; [assumption|].
    apply sanitize_step_canonical; assumption.
Qed.

Lemma canonical_nil (relative : bool) : canonical relative [].
Proof. exists 0, []. repeat split; auto. Qed.

(** Segments the loop pushes as they are go through unchanged. *)
Lemma fold_sanitize_step_normal (relative : bool) (l pruned : list Segment) :
  Forall normal l -> fold_left (sanitize_step relative) l pruned = pruned ++ l.
Proof.
  revert pruned; induction l as [|s l IH]; intros pruned Hl.
  - symmetry. apply app_nil_r.
  - inversion Hl; subst. simpl. rewrite sanitize_step_normal by assumption.
    rewrite IH by assumption. rewrite <- app_assoc. reflexivity.
Qed.

(** On a relative path a run of [".."] met with nothing to pop stays. *)
Lemma fold_sanitize_step_dotdots (k j : nat) :
  fold_left (sanitize_step true) (repeat dotdot k) (repeat dotdot j)
  = repeat dotdot (j + k).
Proof.
  revert j; induction k as [|k IH]; intros j.
  - rewrite Nat.add_0_r. reflexivity.
  - cbn [repeat fold_left].
    rewrite sanitize_step_dotdot_relative, back_is_not_dotdot_repeat by reflexivity.
    rewrite <- repeat_cons. change (dotdot :: repeat dotdot j) with (repeat dotdot (S j)).
    rewrite IH. f_equal. lia.
Qed.

(** Pruning what the loop built gives it back. *)
Lemma prune_canonical_fixed (relative : bool) (pruned : list Segment) :
  canonical relative pruned ->
  fold_left (sanitize_step relative) pruned [] = pruned.
Proof.
  intros [k [l [-> [Hl Hk]]]]. rewrite fold_left_app.
  destruct relative.
  - change (@nil Segment) with (repeat dotdot 0) at 1.
    rewrite (fold_sanitize_step_dotdots k 0). cbn [Nat.add].
    apply fold_sanitize_step_normal. exact Hl.
  - rewrite (Hk eq_refl). cbn [repeat fold_left app].
    apply (fold_sanitize_step_normal false l []). exact Hl.
Qed.

(** ** What sanitize returns *)

Lemma split_sep_free (p : Path) : Forall (fun s => sep_free (segment s)) (split p).
Proof.
  unfold split. destruct (trailing_slash p).
  - apply Forall_app. split; [apply read_segments_sep_free|].
    constructor; [|constructor]. unfold sep_free. simpl. tauto.
  - apply read_segments_sep_free.
Qed.

Lemma prune_canonical (relative : bool) (p : Path) :
  canonical relative (prune relative (split p)).
Proof.
  apply fold_sanitize_step_canonical; [apply split_sep_free|apply canonical_nil].
Qed.

Lemma sanitize_render (p : Path) :
  sanitize p
  = mkPath (render (is_absolute p) (trailing_slash p)
                   (prune (negb (is_absolute p)) (split p))).
Proof.
  pose proof (canonical_clean _ _ (prune_canonical (negb (is_absolute p)) p)) as Hc.
  unfold sanitize, render, join; cbn [path].
  set (pruned := prune (negb (is_absolute p)) (split p)) in *.
  destruct pruned as [|s l] eqn:Ep.
  - destruct (is_absolute p), (trailing_slash p); reflexivity.
  - destruct (join_string_last (s :: l) Hc ltac:(discriminate)) as [x [c [E Hne]]].
    rewrite E.
    replace (StdString.size (x ++ [c]) =? 0) with false
      by (unfold StdString.size; rewrite length_app; simpl; symmetry;
          apply Nat.eqb_neq; lia).
    destruct (is_absolute p), (trailing_slash p); cbn [negb andb List.length Nat.eqb app].
    + change (separator :: x ++ [c]) with ((separator :: x) ++ [c]).
      rewrite directory_snoc by assumption. reflexivity.
    + rewrite app_nil_r. reflexivity.
    + rewrite directory_snoc by assumption. reflexivity.
    + rewrite app_nil_r. reflexivity.
Qed.

Section Render.

Variables (abs dir : bool) (pruned : list Segment).
Hypothesis Hcanon : canonical (negb abs) pruned.

Lemma is_absolute_render : is_absolute (mkPath (render abs dir pruned)) = abs.
Proof.
  unfold render. destruct abs; [reflexivity|]. cbn [app].
  destruct pruned as [|s l] eqn:Ep.
  - rewrite andb_false_r. reflexivity.
  - destruct (join_string_head (s :: l)) as [c [x [E Hne]]];
      [eapply canonical_clean; exact Hcanon|discriminate|].
    rewrite E. cbn [app]. rewrite is_absolute_cons.
    apply Ascii.eqb_neq. exact Hne.
Qed.

Lemma trailing_slash_render :
  trailing_slash (mkPath (render abs dir pruned))
  = if List.length pruned =? 0 then abs else dir.
Proof.
  unfold render. destruct pruned as [|s l] eqn:Ep.
  - rewrite andb_false_r. destruct abs; reflexivity.
  - destruct (join_string_last (s :: l)) as [x [c [E Hne]]];
      [eapply canonical_clean; exact Hcanon|discriminate|].
    rewrite E. cbn [List.length Nat.eqb negb]. rewrite andb_true_r.
    destruct dir.
    + rewrite app_assoc. apply trailing_slash_snoc.
    + rewrite app_nil_r, app_assoc, trailing_slash_snoc.
      apply Ascii.eqb_neq. exact Hne.
Qed.

Lemma read_segments_render :
  read_segments (StdString.size (render abs dir pruned)) (render abs dir pruned)
  = (if abs then [mkSegment []] else []) ++ pruned.
Proof.
  pose proof (canonical_clean _ _ Hcanon) as Hc.
  assert (Ht : (if dir && negb (List.length pruned =? 0) then [separator] else [])
               = [] \/
               ((if dir && negb (List.length pruned =? 0) then [separator] else [])
                = [separator] /\ pruned <> [])).
  { destruct dir; [|left; reflexivity].
    destruct pruned; [left; reflexivity|right; split; [reflexivity|discriminate]]. }
  unfold render, StdString.size. destruct abs; cbn [app List.length].
  - rewrite read_segments_separator. f_equal.
    apply read_segments_join; auto.
  - apply read_segments_join; auto.
Qed.

Lemma prune_split_render :
  prune (negb abs) (split (mkPath (render abs dir pruned))) = pruned.
Proof.
  unfold prune, split; cbn [path]. rewrite read_segments_render.
  assert (E : fold_left (sanitize_step (negb abs))
                        ((if abs then [mkSegment []] else []) ++ pruned) []
              = pruned).
  { rewrite fold_left_app.
    replace (fold_left (sanitize_step (negb abs))
                       (if abs then [mkSegment []] else []) [])
      with (@nil Segment) by (destruct abs; reflexivity).
    apply prune_canonical_fixed. exact Hcanon. }
  destruct (trailing_slash (mkPath (render abs dir pruned))).
  - rewrite fold_left_app, E. reflexivity.
  - exact E.
Qed.

Lemma sanitize_render_fixed :
  sanitize (mkPath (render abs dir pruned)) = mkPath (render abs dir pruned).
Proof.
  rewrite sanitize_render, is_absolute_render, trailing_slash_render,
    prune_split_render.
  f_equal. unfold render. destruct pruned; [|reflexivity].
  cbn [List.length Nat.eqb negb]. rewrite !andb_false_r. reflexivity.
Qed.

End Render.

(** ** Properties of sanitize *)

(** The header's tests of [sanitize] for the _WIN32 build (test.cpp). *)
Example test_sanitize_win32 :
  map (fun s => Path_string (Win32.sanitize (Win32.Path_of s)))
      ["foo///bar/a/b/../c"; "..\foo///bar\a/b/../c"; "../../a/b////c";
       "C:/../../a/b////c"; "C:/./././a/./b/../../c"; "././a/b/c/"]%string
  = ["foo\bar\a\c"; "..\foo\bar\a\c"; "..\..\a\b\c";
     "C:\a\b\c"; "C:\c"; "a\b\c\"]%string.
Proof. reflexivity. Qed.

Example test_trim_directory_win32 :
  map (fun s => Path_string (Win32.trim (Win32.Path_of s)))
      ["C:\hello\how\are\you\\\\"; "C:\hello\how\are\\you";
       "C:\hello\how\are\you\"]%string
  = ["C:\hello\how\are\you"; "C:\hello\how\are\\you";
     "C:\hello\how\are\you"]%string
  /\ map (fun s => Path_string (Win32.directory (Win32.Path_of s)))
         ["C:\hello\how\are\you"; "C:\hello\how\are\you\";
          "C:\hello\how\are\you\\"]%string
     = ["C:\hello\how\are\you\"; "C:\hello\how\are\you\";
        "C:\hello\how\are\you\"]%string.
Proof. split; reflexivity. Qed.





(** C2, as the claim states it, fails where an absolute path without a
    trailing separator sanitizes to the root: ["/.."] has no trailing
    separator, its sanitized form ["/"] is not empty and has one. *)
Lemma sanitize_dotdot_at_root_gains_trailing_slash :
  Path_string (sanitize (Path_of "/..")) = "/"%string
  /\ path (sanitize (Path_of "/..")) <> []
  /\ trailing_slash (Path_of "/..") <> trailing_slash (sanitize (Path_of "/..")).
Proof. repeat split; vm_compute; discriminate. Qed.

Lemma render_not_root (abs dir : bool) (pruned : list Segment) :
  canonical (negb abs) pruned -> pruned <> [] ->
  StdString.eqb (render abs dir pruned) [separator] = false.
Proof.
  intros Hc Hne. apply StdString_eqb_neq. unfold render.
  destruct (join_string_head pruned (canonical_clean _ _ Hc) Hne) as [c [x [E Hsep]]].
  rewrite E. destruct abs; cbn [app]; congruence.
Qed.

(** C2, amended. Whenever [sanitize p] is not empty, it ends in a
    separator exactly when [p] did or when it is the root ["/"]. *)
Theorem sanitize_trailing_slash (p : Path) :
  path (sanitize p) <> [] ->
  trailing_slash (sanitize p)
  = trailing_slash p || Path_eqb (sanitize p) (Path_of "/").
Proof.
  pose proof (prune_canonical (negb (is_absolute p)) p) as Hc.
  rewrite (sanitize_render p). intros Hne.
  rewrite trailing_slash_render by exact Hc.
  unfold Path_eqb, Path_of; cbn [path].
  destruct (prune (negb (is_absolute p)) (split p)) as [|s l] eqn:Ep.
  - cbn [List.length Nat.eqb]. destruct (is_absolute p).
    + unfold render. rewrite andb_false_r. cbn. rewrite orb_true_r. reflexivity.
    + exfalso. apply Hne. unfold render. rewrite andb_false_r. reflexivity.
  - cbn [List.length Nat.eqb].
    change (StdString.lit "/") with [separator].
    rewrite render_not_root by (assumption || discriminate).
    rewrite orb_false_r. reflexivity.
Qed.

Lemma sanitize_trailing_slash_witness :
  path (sanitize (Path_of "/a/../")) <> []
  /\ trailing_slash (sanitize (Path_of "/a/../"))
     = trailing_slash (Path_of "/a/../")
       || Path_eqb (sanitize (Path_of "/a/../")) (Path_of "/").
Proof.
  split.
  - vm_compute. discriminate.
  - apply (sanitize_trailing_slash (Path_of "/a/../")). vm_compute. discriminate.
Defined.

(** ** split *)

(** C4, as the claim states it, fails: the leading separator of
    ["/foo/bar/baz/"] gives an empty first segment, and [split] returns
    five segments, not four. *)
Lemma split_absolute_has_empty_first_segment :
  map segment (split (Path_of "/foo/bar/baz/"))
  = [str ""; str "foo"; str "bar"; str "baz"; str ""]
  /\ List.length (split (Path_of "/foo/bar/baz/")) <> 4.
Proof. split; [reflexivity|vm_compute; discriminate]. Qed.

(** ** [..] in the pruning loop *)

Lemma prune_snoc (relative : bool) (segments : list Segment) (s : Segment) :
  prune relative (segments ++ [s])
  = sanitize_step relative (prune relative segments) s.
Proof. unfold prune. rewrite fold_left_app. reflexivity. Qed.

(** C6. On a relative path unresolvable [..] segments stay at the front,
    in order, and separator runs collapse:
    [sanitize "../../a/b////c" = "../../a/b/c"]; a run of [..] alone is
    kept as it is; and a [..] met after any segments pops the last
    accumulated segment unless the accumulator is empty or its last
    element is itself [..], in which case the [..] is pushed. *)
Theorem sanitize_relative_dotdot :
  Path_string (sanitize (Path_of "../../a/b////c")) = "../../a/b/c"%string
  /\ (forall k, prune true (repeat dotdot k) = repeat dotdot k)
  /\ (forall segments,
        let pruned := prune true segments in
        prune true (segments ++ [dotdot])
        = if (List.length pruned =? 0)
             || StdString.eqb (segment (last pruned (mkSegment []))) (str "..")
          then pruned ++ [dotdot]
          else removelast pruned).
Proof.
  split; [reflexivity|]. split.
  - intros k. apply (fold_sanitize_step_dotdots k 0).
  - intros segments pruned. rewrite prune_snoc. fold pruned.
    rewrite sanitize_step_dotdot_relative by reflexivity.
    unfold back_is_not_dotdot.
    destruct (List.length pruned =? 0); [reflexivity|].
    destruct (StdString.eqb (segment (last pruned (mkSegment []))) (str ".."));
      reflexivity.
Qed.

Lemma prune_absolute_dotdots (k : nat) (rest : list Segment) :
  prune false (repeat dotdot k ++ rest) = prune false rest.
Proof.
  unfold prune. rewrite fold_left_app. f_equal.
  induction k as [|k IH]; [reflexivity|]. exact IH.
Qed.

(** C7. On an absolute path [..] clamps at the root:
    [sanitize "/../../a/b////c" = "/a/b/c"]; a [..] met with an empty
    accumulator is dropped, and otherwise pops the last accumulated
    segment; so any run of [..] at the front of an absolute path
    leaves no trace. *)
Theorem sanitize_absolute_dotdot :
  Path_string (sanitize (Path_of "/../../a/b////c")) = "/a/b/c"%string
  /\ sanitize_step false [] dotdot = []
  /\ (forall segments,
        prune false (segments ++ [dotdot]) = removelast (prune false segments))
  /\ (forall k rest, prune false (repeat dotdot k ++ rest) = prune false rest).
Proof.
  split; [reflexivity|]. split; [reflexivity|]. split.
  - intros segments. rewrite prune_snoc.
    apply sanitize_step_dotdot_absolute. reflexivity.
  - apply prune_absolute_dotdots.
Qed.

(** ** parent, append, trim *)

(** C8. The root is its own parent: [parent] of ["/"] is ["/"], reached
    as [up] does it: [".."] is appended, the result sanitized, and the
    sanitized path marked as a directory. *)
Theorem parent_of_root :
  parent (Path_of "/") = Path_of "/"
  /\ Path_string (parent (Path_of "/")) = "/"%string
  /\ parent (Path_of "/") = directory (sanitize (append (Path_of "/") (Path_of "..")))
  /\ Path_string (append (Path_of "/") (Path_of "..")) = "/.."%string
  /\ Path_string (sanitize (Path_of "/..")) = "/"%string.
Proof. repeat split; reflexivity. Qed.

(** C9. Appending to the empty path puts a separator in front: for every
    non-empty [s], [append] of [s] to [Path("")] is the separator followed
    by [s], which is an absolute path although the empty path is not;
    [join], [operator+] and [operator<<] on an empty base give the
    same. *)
Theorem append_to_empty (s : Path) :
  path s <> [] ->
  path (append (Path_of "") s) = separator :: path s
  /\ is_absolute (Path_of "") = false
  /\ is_absolute (append (Path_of "") s) = true
  /\ join2 (Path_of "") s = append (Path_of "") s
  /\ op_plus (Path_of "") s = append (Path_of "") s
  /\ op_shl (Path_of "") s = append (Path_of "") s.
Proof. intros _. repeat split; reflexivity. Qed.

Lemma append_to_empty_witness :
  path (Path_of "foo") <> []
  /\ path (append (Path_of "") (Path_of "foo")) = separator :: path (Path_of "foo")
  /\ is_absolute (Path_of "") = false
  /\ is_absolute (append (Path_of "") (Path_of "foo")) = true
  /\ join2 (Path_of "") (Path_of "foo") = append (Path_of "") (Path_of "foo")
  /\ op_plus (Path_of "") (Path_of "foo") = append (Path_of "") (Path_of "foo")
  /\ op_shl (Path_of "") (Path_of "foo") = append (Path_of "") (Path_of "foo").
Proof.
  split.
  - vm_compute. discriminate.
  - apply (append_to_empty (Path_of "foo")). vm_compute. discriminate.
Defined.

(** C10. [trim] of a path made of separators only is the empty path: for
    every [n >= 1], trimming [n] separators leaves [""], not ["/"]. *)
Theorem trim_all_separators (n : nat) :
  1 <= n -> trim (mkPath (repeat separator n)) = mkPath [].
Proof. intros _. apply trim_separators. Qed.

Lemma trim_all_separators_witness :
  1 <= 3 /\ trim (mkPath (repeat separator 3)) = mkPath [].
Proof. split; [lia|apply (trim_all_separators 3); lia]. Defined.

(** ** rmdirs *)

Lemma last_cons_default {A : Type} (a d : A) (l : list A) :
  last (a :: l) d = last l a.
Proof.
  revert a d; induction l as [|b l IH]; intros a d; [reflexivity|].
  change (last (a :: b :: l) d) with (last (b :: l) d).
  rewrite !IH. reflexivity.
Qed.

Section RemovalLoop.

Context {FS : Type} `{OS FS}.

(** With [ignore_errors] set the loop makes one removal call for every
    entry, in order, and returns the outcome of the last call. *)
Lemma rmdirs_loop_ignore_errors (contents : list Path) (fs : FS)
    (success : bool) (trace : list (Path * bool)) :
  exists fs' calls,
    rmdirs_loop true contents fs success trace
    = (last (map snd calls) success, fs', trace ++ calls)
    /\ map fst calls = contents.
Proof.
  revert fs success trace; induction contents as [|p contents IH];
    intros fs success trace.
  - exists fs, []. rewrite app_nil_r. split; reflexivity.
  - cbn [rmdirs_loop].
    destruct (if is_directory fs p
              then os_rmdir fs (StdString.c_str (path p))
              else os_unlink fs (StdString.c_str (path p))) as [ok fs1].
    rewrite andb_false_r.
    destruct (IH fs1 ok (trace ++ [(p, ok)])) as [fs' [calls [E Hc]]].
    exists fs', ((p, ok) :: calls). rewrite E. split.
    + cbn [map snd]. rewrite last_cons_default, <- app_assoc. reflexivity.
    + cbn [map fst]. rewrite Hc. reflexivity.
Qed.

(** Without [ignore_errors] the loop stops at the first failed call,
    and returns [false] exactly when a call failed. *)
Lemma rmdirs_loop_stop_on_error (contents : list Path) (fs : FS)
    (trace : list (Path * bool)) :
  exists fs' calls rest,
    rmdirs_loop false contents fs true trace
    = (forallb snd calls, fs', trace ++ calls)
    /\ contents = map fst calls ++ rest.
Proof.
  revert fs trace; induction contents as [|p contents IH]; intros fs trace.
  - exists fs, [], []. rewrite app_nil_r. split; reflexivity.
  - cbn [rmdirs_loop].
    destruct (if is_directory fs p
              then os_rmdir fs (StdString.c_str (path p))
              else os_unlink fs (StdString.c_str (path p))) as [ok fs1].
    destruct ok; cbn [negb andb].
    + destruct (IH fs1 (trace ++ [(p, true)])) as [fs' [calls [rest [E Hc]]]].
      exists fs', ((p, true) :: calls), rest. rewrite E. split.
      * rewrite <- app_assoc. reflexivity.
      * cbn [map fst app]. rewrite Hc. reflexivity.
    + exists fs1, [(p, false)], contents. split; reflexivity.
Qed.

End RemovalLoop.

(** C3. On a tree holding a symbolic link to one of its own directories,
    [rmdirs] with [ignore_errors] set makes a removal call for each of
    the five collected entries; the call for [/w/foo/l/x], whose file
    went with [/w/foo/real/x], fails; the last call succeeds and
    [rmdirs] returns [true].  Without [ignore_errors] the same tree
    gives [false]. *)
Theorem rmdirs_ignore_errors_returns_last_outcome :
  (exists fs' trace,
      rmdirs ToyFS.sort 10 ToyFS.linked_tree (Path_of "foo") true
      = Some (true, fs', trace)
      /\ map (fun call => (Path_string (fst call), snd call)) trace
         = [("/w/foo/real/x", true); ("/w/foo/real", true);
            ("/w/foo/l/x", false); ("/w/foo/l", true); ("foo", true)]%string
      /\ forallb snd trace = false)
  /\ (exists fs' trace,
         rmdirs ToyFS.sort 10 ToyFS.linked_tree (Path_of "foo") false
         = Some (false, fs', trace)).
Proof.
  split.
  - eexists. eexists. split; [vm_compute; reflexivity|]. split; reflexivity.
  - eexists. eexists. vm_compute. reflexivity.
Qed.

(** ** trim, directory and append on every string *)

Lemma find_last_not_of_snoc_same (x : std_string) (c : ascii) :
  StdString.find_last_not_of (x ++ [c]) c = StdString.find_last_not_of x c.
Proof.
  induction x as [|y x IH]; simpl.
  - rewrite Ascii.eqb_refl. reflexivity.
  - rewrite IH. reflexivity.
Qed.

Lemma erase_from (s : std_string) (pos n : nat) :
  StdString.size s <= pos + n -> StdString.erase s pos n = firstn pos s.
Proof.
  unfold StdString.erase, StdString.size. intros Hn.
  rewrite skipn_all2 by lia. apply app_nil_r.
Qed.

Lemma trim_snoc_separator (x : std_string) :
  trim (mkPath (x ++ [separator])) = trim (mkPath x).
Proof.
  unfold trim; cbn [path]. rewrite find_last_not_of_snoc_same.
  destruct x as [|c x]; [reflexivity|].
  cbn [app]. cbn [StdString.size List.length Nat.eqb].
  destruct (StdString.find_last_not_of (c :: x) separator) as [i|] eqn:E;
    [|reflexivity].
  apply find_last_not_of_lt in E. unfold StdString.size in E.
  rewrite !erase_from
    by (unfold StdString.size; cbn [List.length]; rewrite ?length_app; lia).
  f_equal. change (c :: x ++ [separator]) with ((c :: x) ++ [separator]).
  rewrite firstn_app. replace (i + 1 - List.length (c :: x)) with 0 by lia.
  cbn [firstn]. apply app_nil_r.
Qed.

Lemma trailing_slash_false_trim (p : Path) :
  trailing_slash p = false -> trim p = p.
Proof.
  destruct p as [x]. destruct (snoc_cases x) as [->|[y [c ->]]]; [reflexivity|].
  rewrite trailing_slash_snoc. intros Hc. apply trim_snoc.
  apply Ascii.eqb_neq. exact Hc.
Qed.

Lemma trim_decompose (p : Path) :
  (exists n, path p = path (trim p) ++ repeat separator n)
  /\ trailing_slash (trim p) = false.
Proof.
  destruct p as [x]. induction x as [|c x IH] using rev_ind.
  - split; [exists 0; reflexivity|reflexivity].
  - destruct (Ascii.eqb c separator) eqn:E.
    + apply Ascii.eqb_eq in E. subst c. rewrite trim_snoc_separator.
      destruct IH as [[n Hn] Ht]. split; [|exact Ht].
      exists (S n). cbn [path] in *. rewrite Hn at 1.
      rewrite <- app_assoc. f_equal. symmetry. apply repeat_cons.
    + apply Ascii.eqb_neq in E. rewrite trim_snoc by exact E. split.
      * exists 0. cbn. rewrite app_nil_r. reflexivity.
      * rewrite trailing_slash_snoc. apply Ascii.eqb_neq. exact E.
Qed.

(** X1. [trim] removes separators from the end and nothing else: the
    path is the trimmed path followed by a run of separators, and the
    trimmed path does not end in a separator; so trimming twice is
    trimming once. *)
Theorem trim_strips_trailing_separators (p : Path) :
  (exists n, path p = path (trim p) ++ repeat separator n)
  /\ trailing_slash (trim p) = false
  /\ trim (trim p) = trim p.
Proof.
  destruct (trim_decompose p) as [Hn Ht]. repeat split; try assumption.
  apply trailing_slash_false_trim. exact Ht.
Qed.

Lemma trim_directory (p : Path) : trim (directory p) = trim p.
Proof.
  unfold directory, StdString.push_back. rewrite trim_snoc_separator.
  destruct (trim p) as [x] eqn:E. cbn [path].
  rewrite <- E. apply trailing_slash_false_trim. apply trim_decompose.
Qed.

(** X2. [directory] makes a path end in exactly one separator, touching
    only separators at its end: the result has a trailing separator,
    what precedes it has none, the path with a separator added is the
    result followed by a run of separators, and marking twice is marking
    once. *)
Theorem directory_single_trailing_separator (p : Path) :
  trailing_slash (directory p) = true
  /\ (exists y, path (directory p) = y ++ [separator]
               /\ trailing_slash (mkPath y) = false)
  /\ (exists n, path p ++ [separator] = path (directory p) ++ repeat separator n)
  /\ directory (directory p) = directory p.
Proof.
  destruct (trim_decompose p) as [[n Hn] Ht].
  repeat split.
  - unfold directory, StdString.push_back. rewrite trailing_slash_snoc.
    apply Ascii.eqb_refl.
  - exists (path (trim p)). split; [reflexivity|].
    destruct (trim p); exact Ht.
  - exists n. unfold directory, StdString.push_back; cbn [path].
    rewrite Hn at 1. rewrite <- !app_assoc. f_equal.
    symmetry. apply repeat_cons.
  - unfold directory at 1. rewrite trim_directory. reflexivity.
Qed.

Lemma directory_is_absolute_or_empty (p : Path) :
  is_absolute (directory p) = is_absolute p || (StdString.size (path p) =? 0).
Proof.
  destruct (trim_decompose p) as [[n Hn] _].
  destruct p as [[|c x]]; [reflexivity|].
  cbn [path StdString.size List.length Nat.eqb] in *.
  rewrite orb_false_r, is_absolute_cons.
  unfold directory, StdString.push_back.
  destruct (path (trim (mkPath (c :: x)))) as [|d t] eqn:E.
  - cbn [app] in *. destruct n as [|n]; [discriminate|].
    injection Hn as -> _. reflexivity.
  - cbn [app] in *. injection Hn as -> _. reflexivity.
Qed.

(** X3. [directory] keeps a path relative or absolute, except for the
    empty path, which it turns into the root ["/"]. *)
Theorem directory_is_absolute (p : Path) :
  is_absolute (directory p) = is_absolute p || (StdString.size (path p) =? 0)
  /\ directory (mkPath []) = Path_of "/".
Proof. split; [apply directory_is_absolute_or_empty|reflexivity]. Qed.

Lemma append_to_other (p s : Path) : append_to p (Other s) = append p s.
Proof. reflexivity. Qed.

(** What the object appended to itself receives: its own path with the
    separator already pushed. *)
Lemma append_to_this (p : Path) :
  append_to p This = append p (append p (mkPath [])).
Proof.
  unfold append_to, append. cbn [path]. rewrite !app_nil_r.
  destruct (negb (trailing_slash p)); destruct p; reflexivity.
Qed.

Lemma append_is_absolute (p s : Path) :
  path p <> [] -> is_absolute (append p s) = is_absolute p.
Proof.
  intros Hp. destruct p as [[|c x]]; [exfalso; apply Hp; reflexivity|].
  unfold append. destruct (negb (trailing_slash (mkPath (c :: x)))); reflexivity.
Qed.

Lemma append_trailing_slash (p s : Path) :
  trailing_slash (append p s)
  = if StdString.size (path s) =? 0 then true else trailing_slash s.
Proof.
  destruct p as [x], s as [[|d y]].
  - unfold append. cbn [path StdString.size List.length Nat.eqb].
    destruct (trailing_slash (mkPath x)) eqn:E; cbn [negb path];
      rewrite app_nil_r; [exact E|].
    unfold StdString.push_back. rewrite trailing_slash_snoc. apply Ascii.eqb_refl.
  - unfold append; cbn [path StdString.size List.length Nat.eqb].
    destruct (negb (trailing_slash (mkPath x))); cbn [path];
      destruct (snoc_cases (d :: y)) as [E|[z [c E]]]; try discriminate;
      rewrite E, app_assoc, !trailing_slash_snoc; reflexivity.
Qed.

(** X4. [append] to a non-empty path keeps that path's absoluteness,
    whatever is appended.  With an argument held in another object the
    result ends in a separator exactly when the appended path does (and
    always when that path is empty).  With the object itself as the
    argument, the path with the separator already pushed is appended, so
    the result always ends in a separator. *)
Theorem append_keeps_ends (p : Path) (segment : operand) :
  path p <> [] ->
  is_absolute (append_to p segment) = is_absolute p
  /\ trailing_slash (append_to p segment)
     = match segment with
       | Other s => if StdString.size (path s) =? 0 then true else trailing_slash s
       | This => true
       end
  /\ path (append_to p This)
     = path (append_to p (Other (mkPath []))) ++ path (append_to p (Other (mkPath []))).
Proof.
  intros Hp. repeat split.
  - destruct segment as [s|].
    + rewrite append_to_other. apply append_is_absolute. exact Hp.
    + rewrite append_to_this. apply append_is_absolute. exact Hp.
  - destruct segment as [s|].
    + rewrite append_to_other. apply append_trailing_slash.
    + rewrite append_to_this, append_trailing_slash, append_trailing_slash.
      cbn [path StdString.size List.length Nat.eqb].
      destruct (StdString.size (path (append p (mkPath []))) =? 0); reflexivity.
  - unfold append_to. cbn [path]. rewrite !app_nil_r. reflexivity.
Qed.

Lemma append_keeps_ends_witness :
  path (Path_of "a") <> []
  /\ is_absolute (append_to (Path_of "a") This) = is_absolute (Path_of "a")
  /\ trailing_slash (append_to (Path_of "a") This) = true
  /\ path (append_to (Path_of "a") This)
     = path (append_to (Path_of "a") (Other (mkPath [])))
       ++ path (append_to (Path_of "a") (Other (mkPath []))).
Proof.
  split.
  - vm_compute. discriminate.
  - apply (append_keeps_ends (Path_of "a") This). vm_compute. discriminate.
Defined.

(** ** split and join are inverse to each other *)

Lemma getline_chars_cases (stream : std_string) :
  sep_free (fst (getline_chars stream))
  /\ (stream = fst (getline_chars stream) ++ separator :: snd (getline_chars stream)
      \/ (stream = fst (getline_chars stream) /\ snd (getline_chars stream) = [])).
Proof.
  split; [apply getline_chars_sep_free|].
  induction stream as [|c rest IH]; simpl; [right; split; reflexivity|].
  destruct (Ascii.eqb c separator) eqn:E; simpl.
  - apply Ascii.eqb_eq in E. subst. left. reflexivity.
  - destruct (getline_chars rest) as [s rest']. simpl in *.
    destruct IH as [IH|[IH ->]]; [left|right; split; [|reflexivity]];
      congruence.
Qed.

Lemma trailing_slash_app (x y : std_string) :
  y <> [] -> trailing_slash (mkPath (x ++ y)) = trailing_slash (mkPath y).
Proof.
  intros Hy. destruct (snoc_cases y) as [->|[z [c ->]]]; [congruence|].
  rewrite app_assoc, !trailing_slash_snoc. reflexivity.
Qed.

Lemma trailing_slash_sep_free (x : std_string) :
  sep_free x -> trailing_slash (mkPath x) = false.
Proof.
  intros Hx. destruct (snoc_cases x) as [->|[z [c ->]]]; [reflexivity|].
  rewrite trailing_slash_snoc. apply Ascii.eqb_neq. intros ->.
  apply Hx. apply in_or_app. right. left. reflexivity.
Qed.

Lemma join_string_read_segments (n : nat) (stream : std_string) :
  List.length stream <= n ->
  join_string (read_segments n stream
               ++ if trailing_slash (mkPath stream) then [mkSegment []] else [])
  = stream.
Proof.
  revert stream; induction n as [|n IH]; intros stream Hn.
  - destruct stream; [reflexivity|simpl in Hn; lia].
  - destruct stream as [|c r]; [reflexivity|].
    cbn [read_segments getline].
    pose proof (getline_chars_cases (c :: r)) as [Hf Hc].
    pose proof (getline_chars_rest_length (c :: r)) as Hl.
    destruct (getline_chars (c :: r)) as [s rest]. cbn [fst snd] in *.
    destruct Hc as [Hc|[Hc ->]].
    + rewrite Hc. destruct rest as [|d rest].
      * rewrite read_segments_nil, trailing_slash_snoc, Ascii.eqb_refl.
        cbn. rewrite ?app_nil_r. reflexivity.
      * rewrite (trailing_slash_app s (separator :: d :: rest)) by discriminate.
        change (separator :: d :: rest) with ([separator] ++ d :: rest).
        rewrite (trailing_slash_app [separator] (d :: rest)) by discriminate.
        cbn [app].
        assert (Hr : List.length (d :: rest) <= n) by (simpl in *; lia).
        specialize (IH (d :: rest) Hr).
        destruct (read_segments n (d :: rest)
                  ++ (if trailing_slash (mkPath (d :: rest))
                      then [mkSegment []] else [])) as [|s' l] eqn:El.
        { destruct n; [simpl in Hr; lia|]. cbn in El.
          destruct (getline_chars (d :: rest)); discriminate. }
        rewrite join_string_cons2, IH. reflexivity.
    + rewrite read_segments_nil, <- Hc.
      rewrite trailing_slash_sep_free by (rewrite Hc; exact Hf).
      rewrite Hc. cbn [app]. apply join_string_single.
Qed.

(** X5. Joining what [split] returns gives the path back, whatever the
    path: doubled, leading and trailing separators all come back. *)
Theorem join_split (p : Path) : join (split p) = p.
Proof.
  destruct p as [x]. unfold join, split; cbn [path]. f_equal.
  pose proof (join_string_read_segments (StdString.size x) x (le_n _)) as H.
  destruct (trailing_slash (mkPath x)); [exact H|].
  rewrite app_nil_r in H. exact H.
Qed.

(** X6. Splitting what [join] builds from segments that are non-empty
    and hold no separator gives the segments back. *)
Theorem split_join (segments : list Segment) :
  Forall clean segments -> split (join segments) = segments.
Proof.
  intros Hc. unfold split, join; cbn [path].
  assert (Ht : trailing_slash (mkPath (join_string segments)) = false).
  { destruct segments as [|s l]; [reflexivity|].
    destruct (join_string_last (s :: l) Hc ltac:(discriminate)) as [x [c [E Hne]]].
    rewrite E, trailing_slash_snoc. apply Ascii.eqb_neq. exact Hne. }
  rewrite Ht.
  rewrite <- (app_nil_r (join_string segments)).
  apply read_segments_join; [exact Hc|left; reflexivity|].
  unfold StdString.size. rewrite app_nil_r. apply le_n.
Qed.

Lemma split_join_witness :
  Forall clean [mkSegment (str "usr"); mkSegment (str ".."); mkSegment (str "lib")]
  /\ split (join [mkSegment (str "usr"); mkSegment (str ".."); mkSegment (str "lib")])
     = [mkSegment (str "usr"); mkSegment (str ".."); mkSegment (str "lib")].
Proof.
  assert (H : Forall clean
                [mkSegment (str "usr"); mkSegment (str ".."); mkSegment (str "lib")]).
  { repeat constructor; try discriminate;
      unfold sep_free; cbn; intuition discriminate. }
  split; [exact H|]. apply (split_join _ H).
Defined.

(** ** filename, extension and stem *)

Lemma rfind_None (s : std_string) (c : ascii) :
  StdString.rfind s c = None <-> ~ In c s.
Proof.
  induction s as [|x r IH]; simpl; [tauto|].
  destruct (StdString.rfind r c) as [i|].
  - split; [discriminate|]. intros Hn. exfalso.
    assert (Hr : ~ In c r) by tauto. apply IH in Hr. discriminate.
  - destruct (Ascii.eqb x c) eqn:E.
    + apply Ascii.eqb_eq in E. split; [discriminate|]. intros Hn. tauto.
    + apply Ascii.eqb_neq in E. split; [|reflexivity].
      intros _ [H|H]; [congruence|]. apply IH in H; [exact H|reflexivity].
Qed.

Lemma rfind_last (pre post : std_string) (c : ascii) :
  ~ In c post -> StdString.rfind (pre ++ c :: post) c = Some (List.length pre).
Proof.
  intros Hp. induction pre as [|x pre IH]; simpl.
  - apply rfind_None in Hp. rewrite Hp, Ascii.eqb_refl. reflexivity.
  - rewrite IH. reflexivity.
Qed.

Lemma rfind_Some (s : std_string) (c : ascii) (i : nat) :
  StdString.rfind s c = Some i ->
  exists pre post, s = pre ++ c :: post /\ List.length pre = i /\ ~ In c post.
Proof.
  revert i; induction s as [|x r IH]; simpl; intros i; [discriminate|].
  destruct (StdString.rfind r c) as [j|] eqn:Er.
  - intros E. injection E as <-.
    destruct (IH j eq_refl) as [pre [post [-> [Hl Hp]]]].
    exists (x :: pre), post. simpl. auto.
  - destruct (Ascii.eqb x c) eqn:E; [|discriminate].
    apply Ascii.eqb_eq in E. subst x. intros E. injection E as <-.
    exists [], r. repeat split. apply rfind_None. exact Er.
Qed.

(** The index [rfind] returns is inside the string, so [substr] from the
    next index is in range. *)
Lemma rfind_lt (s : std_string) (c : ascii) (i : nat) :
  StdString.rfind s c = Some i -> i < StdString.size s.
Proof.
  intros E. destruct (rfind_Some s c i E) as [pre [post [-> [<- _]]]].
  unfold StdString.size. rewrite length_app. simpl. lia.
Qed.

Lemma rfind_app_absent (pre post : std_string) (c : ascii) :
  ~ In c post -> StdString.rfind (pre ++ post) c = StdString.rfind pre c.
Proof.
  intros Hp. induction pre as [|x pre IH]; simpl.
  - apply rfind_None. exact Hp.
  - rewrite IH. reflexivity.
Qed.

Lemma rfind_before (pre post : std_string) (c : ascii) (i : nat) :
  StdString.rfind (pre ++ post) c = Some i -> i < List.length pre -> ~ In c post.
Proof.
  revert i; induction pre as [|x pre IH]; simpl; intros i E Hi; [lia|].
  destruct (StdString.rfind (pre ++ post) c) as [j|] eqn:Er.
  - injection E as <-. apply (IH j eq_refl). lia.
  - apply rfind_None in Er. intros H. apply Er. apply in_or_app. right. exact H.
Qed.

Lemma substr_from_after (pre post : std_string) (c : ascii) :
  StdString.substr_from (pre ++ c :: post) (List.length pre + 1) = post.
Proof.
  unfold StdString.substr_from.
  replace (pre ++ c :: post) with ((pre ++ [c]) ++ post)
    by (rewrite <- app_assoc; reflexivity).
  rewrite skipn_app, skipn_all2 by (rewrite length_app; simpl; lia).
  rewrite length_app. simpl.
  replace (List.length pre + 1 - (List.length pre + 1)) with 0 by lia.
  reflexivity.
Qed.

Lemma filename_after_last_separator (dir name : std_string) :
  sep_free name -> filename (mkPath (dir ++ separator :: name)) = name.
Proof.
  intros Hn. unfold filename; cbn [path].
  rewrite rfind_last by exact Hn. apply substr_from_after.
Qed.

Lemma filename_shape (p : Path) :
  (sep_free (path p) /\ filename p = [])
  \/ (exists dir, path p = dir ++ separator :: filename p /\ sep_free (filename p)).
Proof.
  unfold filename.
  destruct (StdString.rfind (path p) separator) as [i|] eqn:E.
  - destruct (rfind_Some _ _ _ E) as [pre [post [Hp [Hl Hf]]]].
    right. exists pre. rewrite Hp, <- Hl, substr_from_after. auto.
  - apply rfind_None in E. left. auto.
Qed.

Lemma extension_shape (p : Path) :
  (~ In "."%char (filename p) /\ extension p = [])
  \/ (exists base, filename p = base ++ "."%char :: extension p
                   /\ ~ In "."%char (extension p)).
Proof.
  unfold extension.
  destruct (StdString.rfind (filename p) "."%char) as [i|] eqn:E.
  - destruct (rfind_Some _ _ _ E) as [pre [post [Hp [Hl Hd]]]].
    right. exists pre. rewrite Hp, <- Hl, substr_from_after. auto.
  - apply rfind_None in E. left. auto.
Qed.

Lemma in_middle {A : Type} (a : A) (x y : list A) : In a (x ++ a :: y).
Proof. apply in_or_app. right. left. reflexivity. Qed.

(** X7. [filename] is what follows the last separator: it holds no
    separator, the path is some prefix, a separator, and the file name;
    a path without any separator has the empty file name. *)
Theorem filename_spec (p : Path) :
  sep_free (filename p)
  /\ (In separator (path p) -> exists dir, path p = dir ++ separator :: filename p)
  /\ (sep_free (path p) -> filename p = []).
Proof.
  destruct (filename_shape p) as [[Hs E]|[dir [E Hf]]].
  - rewrite E. repeat split.
    + intros [].
    + intros Hi. contradiction.
  - repeat split.
    + exact Hf.
    + intros _. exists dir. exact E.
    + intros Hs. exfalso. apply Hs. rewrite E. apply in_middle.
Qed.

Lemma filename_append_sep_free (p s : Path) :
  sep_free (path s) -> filename (append p s) = path s.
Proof.
  intros Hs. unfold append.
  destruct (trailing_slash p) eqn:Et; cbn [negb path].
  - destruct p as [x]. destruct (snoc_cases x) as [->|[y [c ->]]]; [discriminate|].
    rewrite trailing_slash_snoc in Et. apply Ascii.eqb_eq in Et. subst c.
    cbn [path]. rewrite <- app_assoc. apply filename_after_last_separator. exact Hs.
  - unfold StdString.push_back. rewrite <- app_assoc.
    apply filename_after_last_separator. exact Hs.
Qed.

Lemma sep_free_relative (s : Path) : sep_free (path s) -> is_absolute s = false.
Proof.
  intros Hs. destruct s as [[|c x]]; [reflexivity|].
  rewrite is_absolute_cons. apply Ascii.eqb_neq. intros ->.
  apply Hs. left. reflexivity.
Qed.

Lemma filename_trailing_slash (p : Path) :
  trailing_slash p = true -> filename p = [].
Proof.
  intros Ht. destruct p as [x].
  destruct (snoc_cases x) as [->|[y [c ->]]]; [discriminate|].
  rewrite trailing_slash_snoc in Ht. apply Ascii.eqb_eq in Ht. subst c.
  apply (filename_after_last_separator y []). intros [].
Qed.

(** X8. The file name of a path with a separator-free path appended is
    the appended path, whatever the base, when the appended path is held
    in another object; this holds through [append], [relative],
    [join] and [operator+] ([join] and [operator+] append to a copy).
    A path appended to itself ends in a separator, so its file name is
    empty. *)
Theorem filename_append (p s : Path) :
  sep_free (path s) ->
  filename (append_to p (Other s)) = path s
  /\ filename (relative_to p (Other s)) = path s
  /\ filename (join2 p s) = path s
  /\ filename (op_plus p s) = path s
  /\ filename (append_to p This) = []
  /\ (is_absolute p = false -> filename (relative_to p This) = []).
Proof.
  intros Hs. pose proof (filename_append_sep_free p s Hs) as E.
  assert (Ht : filename (append_to p This) = []).
  { apply filename_trailing_slash.
    rewrite append_to_this, append_trailing_slash, append_trailing_slash.
    cbn [path StdString.size List.length Nat.eqb].
    destruct (StdString.size (path (append p (mkPath []))) =? 0); reflexivity. }
  repeat split; try exact E; try exact Ht.
  - unfold relative_to. rewrite (sep_free_relative s Hs). exact E.
  - destruct p. exact E.
  - intros Ha. unfold relative_to. rewrite Ha. exact Ht.
Qed.

Lemma filename_append_witness :
  sep_free (path (Path_of "c.txt"))
  /\ filename (append_to (Path_of "a/b") (Other (Path_of "c.txt"))) = path (Path_of "c.txt")
  /\ filename (relative_to (Path_of "a/b") (Other (Path_of "c.txt")))
     = path (Path_of "c.txt")
  /\ filename (join2 (Path_of "a/b") (Path_of "c.txt")) = path (Path_of "c.txt")
  /\ filename (op_plus (Path_of "a/b") (Path_of "c.txt")) = path (Path_of "c.txt")
  /\ filename (append_to (Path_of "a/b") This) = []
  /\ (is_absolute (Path_of "a/b") = false ->
      filename (relative_to (Path_of "a/b") This) = []).
Proof.
  assert (H : sep_free (path (Path_of "c.txt")))
    by (unfold sep_free; cbn; intuition discriminate).
  split; [exact H|]. apply (filename_append (Path_of "a/b") (Path_of "c.txt") H).
Defined.

(** X9. [extension] is what follows the last dot of the file name: it
    holds no dot and no separator, the file name is some base, a dot,
    and the extension; a file name without a dot has the empty
    extension, and so has every path without a separator. *)
Theorem extension_spec (p : Path) :
  ~ In "."%char (extension p)
  /\ sep_free (extension p)
  /\ (In "."%char (filename p) ->
      exists base, filename p = base ++ "."%char :: extension p)
  /\ (~ In "."%char (filename p) -> extension p = [])
  /\ (sep_free (path p) -> extension p = []).
Proof.
  assert (Hf : sep_free (filename p)).
  { destruct (filename_shape p) as [[_ E]|[dir [_ Hf]]]; [rewrite E; intros []|exact Hf]. }
  destruct (extension_shape p) as [[Hn E]|[base [E Hd]]].
  - rewrite E. repeat split; try (intros []); try reflexivity.
    intros Hi. contradiction.
  - repeat split.
    + exact Hd.
    + intros Hi. apply Hf. rewrite E. apply in_or_app. right. right. exact Hi.
    + intros _. exists base. exact E.
    + intros Hn. exfalso. apply Hn. rewrite E. apply in_middle.
    + intros Hs. exfalso.
      destruct (filename_shape p) as [[_ E0]|[dir [E0 _]]].
      * rewrite E0 in E. destruct base; discriminate.
      * apply Hs. rewrite E0. apply in_middle.
Qed.

Lemma stem_cut (x : std_string) (dot : nat) :
  StdString.substr x 0 dot = firstn dot x.
Proof. reflexivity. Qed.

(** X10. [stem] only ever cuts a path at its last dot: the result is a
    prefix of the path, the path is absolute exactly when the stem is,
    and whatever is cut off is a dot followed by characters that are
    neither dots nor separators. *)
Theorem stem_prefix (p : Path) :
  (stem p = p
   \/ exists ext, path p = path (stem p) ++ "."%char :: ext
                  /\ ~ In "."%char ext /\ sep_free ext)
  /\ is_absolute (stem p) = is_absolute p.
Proof.
  destruct p as [x]. unfold stem; cbn [path].
  destruct (StdString.rfind x "."%char) as [dot|] eqn:Ed;
    [|split; [left|]; reflexivity].
  destruct (rfind_Some _ _ _ Ed) as [pre [post [-> [Hl Hd]]]].
  assert (Hcut : StdString.substr (pre ++ "."%char :: post) 0 dot = pre).
  { rewrite stem_cut, <- Hl, firstn_app, firstn_all, Nat.sub_diag.
    cbn [firstn]. apply app_nil_r. }
  destruct (StdString.rfind (pre ++ "."%char :: post) separator) as [sep|] eqn:Es.
  - destruct (sep <? dot) eqn:Elt; [|split; [left|]; reflexivity].
    apply Nat.ltb_lt in Elt. rewrite Hcut. cbn [path]. split.
    + right. exists post. repeat split; [exact Hd|].
      intros Hi. apply (rfind_before _ _ _ _ Es); [lia|]. right. exact Hi.
    + destruct pre as [|c pre]; [simpl in Hl; lia|reflexivity].
  - apply rfind_None in Es. rewrite Hcut. cbn [path]. split.
    + right. exists post. repeat split; [exact Hd|].
      intros Hi. apply Es. apply in_or_app. right. right. exact Hi.
    + destruct pre as [|c pre]; [|reflexivity].
      cbn [app]. rewrite is_absolute_cons. reflexivity.
Qed.

Lemma stem_dot_in_filename (dir base ext : std_string) :
  sep_free (base ++ "."%char :: ext) -> ~ In "."%char ext ->
  stem (mkPath (dir ++ separator :: base ++ "."%char :: ext))
  = mkPath (dir ++ separator :: base).
Proof.
  intros Hf Hd. unfold stem; cbn [path].
  rewrite (rfind_last dir (base ++ "."%char :: ext) separator Hf).
  replace (dir ++ separator :: base ++ "."%char :: ext)
    with ((dir ++ separator :: base) ++ "."%char :: ext)
    by (rewrite <- app_assoc; reflexivity).
  rewrite (rfind_last _ ext "."%char Hd).
  replace (List.length dir <? List.length (dir ++ separator :: base)) with true
    by (symmetry; apply Nat.ltb_lt; rewrite length_app; simpl; lia).
  rewrite stem_cut, firstn_app, firstn_all, Nat.sub_diag. cbn [firstn].
  rewrite app_nil_r. reflexivity.
Qed.

Lemma stem_no_dot_in_filename (dir name : std_string) :
  sep_free name -> ~ In "."%char name ->
  stem (mkPath (dir ++ separator :: name)) = mkPath (dir ++ separator :: name).
Proof.
  intros Hf Hd. unfold stem; cbn [path].
  rewrite (rfind_last dir name separator Hf).
  rewrite (rfind_app_absent dir (separator :: name) "."%char)
    by (intros [E|Hi]; [discriminate E|tauto]).
  destruct (StdString.rfind dir "."%char) as [dot|] eqn:Ed; [|reflexivity].
  apply rfind_lt in Ed. unfold StdString.size in Ed.
  replace (List.length dir <? dot) with false
    by (symmetry; apply Nat.ltb_ge; lia).
  reflexivity.
Qed.

Lemma stem_no_separator (pre ext : std_string) :
  sep_free (pre ++ "."%char :: ext) -> ~ In "."%char ext ->
  stem (mkPath (pre ++ "."%char :: ext)) = mkPath pre.
Proof.
  intros Hf Hd. unfold stem; cbn [path].
  rewrite (rfind_last pre ext "."%char Hd).
  apply rfind_None in Hf. rewrite Hf.
  rewrite stem_cut, firstn_app, firstn_all, Nat.sub_diag. cbn [firstn].
  rewrite app_nil_r. reflexivity.
Qed.

(** X11. For a path with a separator, [stem] and [extension] take the
    path apart at the same dot, the last one of the file name: the path
    is the stem, a dot, and the extension; with no dot in the file name
    the stem is the whole path and the extension is empty, even when a
    directory name has a dot.  For a path without a separator the two
    part ways: [stem] still cuts at the last dot, [extension] is
    empty. *)
Theorem stem_extension (p : Path) :
  (In separator (path p) -> In "."%char (filename p) ->
   path p = path (stem p) ++ "."%char :: extension p)
  /\ (In separator (path p) -> ~ In "."%char (filename p) ->
      stem p = p /\ extension p = [])
  /\ (sep_free (path p) -> In "."%char (path p) ->
      extension p = []
      /\ exists ext, path p = path (stem p) ++ "."%char :: ext).
Proof.
  pose proof (filename_shape p) as Hfile.
  pose proof (extension_shape p) as Hext.
  destruct p as [x]; cbn [path] in *.
  remember (filename (mkPath x)) as f eqn:Ef.
  remember (extension (mkPath x)) as e eqn:Ee.
  split; [|split].
  - intros Hs Hd.
    destruct Hfile as [[Hfree _]|[dir [Ex Hf]]]; [contradiction|].
    destruct Hext as [[Hn _]|[base [Eb Hed]]]; [contradiction|].
    rewrite Eb in *. subst x.
    rewrite stem_dot_in_filename by assumption. cbn [path].
    rewrite <- app_assoc. reflexivity.
  - intros Hs Hd.
    destruct Hfile as [[Hfree _]|[dir [Ex Hf]]]; [contradiction|].
    destruct Hext as [[_ E]|[base [Eb _]]];
      [|exfalso; apply Hd; rewrite Eb; apply in_middle].
    split; [|exact E]. subst x. apply stem_no_dot_in_filename; assumption.
  - intros Hs Hd. split.
    + destruct Hfile as [[_ E0]|[dir [Ex _]]];
        [|exfalso; apply Hs; rewrite Ex; apply in_middle].
      destruct Hext as [[_ E]|[base [Eb _]]]; [exact E|].
      rewrite E0 in Eb. destruct base; discriminate.
    + destruct (StdString.rfind x "."%char) as [dot|] eqn:Er.
      * destruct (rfind_Some _ _ _ Er) as [pre [post [Ex [_ Hp]]]]. subst x.
        exists post. rewrite stem_no_separator by assumption. reflexivity.
      * apply rfind_None in Er. contradiction.
Qed.

(** ** The shape of a sanitized path *)

(** X12. The segments of a sanitized path: an empty segment in front
    when the path was absolute, then segments that are non-empty and
    are not ["."] (on a relative path a run of [".."] may come first, on
    an absolute path there is no [".."] at all), then an empty segment
    when the sanitized path ends in a separator. *)
Theorem sanitize_segments (p : Path) :
  exists pruned,
    split (sanitize p)
    = (if is_absolute p then [mkSegment []] else [])
      ++ pruned
      ++ (if trailing_slash (sanitize p) then [mkSegment []] else [])
    /\ canonical (negb (is_absolute p)) pruned
    /\ Forall (fun s => segment s <> [] /\ segment s <> str "."
                        /\ (is_absolute p = true -> segment s <> str ".."))
              pruned.
Proof.
  pose proof (prune_canonical (negb (is_absolute p)) p) as Hc.
  exists (prune (negb (is_absolute p)) (split p)). split; [|split; [exact Hc|]].
  - rewrite (sanitize_render p). unfold split at 1; cbn [path].
    rewrite read_segments_render by exact Hc.
    destruct (trailing_slash _); rewrite <- ?app_assoc, ?app_nil_r; reflexivity.
  - destruct Hc as [k [l [-> [Hl Hk]]]]. apply Forall_app. split.
    + apply Forall_forall. intros s Hs. pose proof Hs as Hin.
      apply repeat_spec in Hs. subst s.
      repeat split; try discriminate.
      intros Ha. rewrite Ha in Hk. specialize (Hk eq_refl). subst k.
      destruct Hin.
    + eapply Forall_impl; [|exact Hl].
      intros s [[Hne _] [Hd Hdd]]. repeat split; auto.
Qed.

Lemma double_separator_after_segment (s rest x y : std_string) :
  sep_free s ->
  s ++ separator :: rest = x ++ separator :: separator :: y ->
  (exists x', rest = x' ++ separator :: separator :: y)
  \/ (exists rest', rest = separator :: rest').
Proof.
  revert x; induction s as [|c s IH]; intros x Hs E.
  - destruct x as [|d x]; cbn [app] in E.
    + right. injection E as ->. eauto.
    + left. injection E as _ ->. eauto.
  - destruct x as [|d x]; cbn [app] in E.
    + injection E as -> _. exfalso. apply Hs. left. reflexivity.
    + injection E as _ E. apply (IH x); [|exact E].
      intros Hi. apply Hs. right. exact Hi.
Qed.

Lemma join_string_no_double_separator (l : list Segment) (x y : std_string) :
  Forall clean l -> join_string l <> x ++ separator :: separator :: y.
Proof.
  revert x; induction l as [|s l IH]; intros x Hl E.
  - destruct x; discriminate.
  - inversion Hl as [|? ? [_ Hs] Hl']; subst. destruct l as [|s' l].
    + rewrite join_string_single in E. apply Hs. rewrite E.
      apply in_or_app. right. left. reflexivity.
    + rewrite join_string_cons2 in E.
      destruct (double_separator_after_segment _ _ _ _ Hs E) as [[x' E']|[r E']].
      * exact (IH x' Hl' E').
      * destruct (join_string_head (s' :: l) Hl' ltac:(discriminate))
          as [c [z [Ej Hc]]]. congruence.
Qed.

(** X13. A sanitized path never holds two separators in a row. *)
Theorem sanitize_no_double_separator (p : Path) (x y : std_string) :
  path (sanitize p) <> x ++ separator :: separator :: y.
Proof.
  pose proof (canonical_clean _ _ (prune_canonical (negb (is_absolute p)) p)) as Hc.
  rewrite (sanitize_render p); cbn [path]. unfold render.
  set (pruned := prune (negb (is_absolute p)) (split p)) in *.
  assert (Hbody : forall x' y',
             join_string pruned
             ++ (if trailing_slash p && negb (List.length pruned =? 0)
                 then [separator] else [])
             <> x' ++ separator :: separator :: y').
  { intros x' y' E.
    destruct (trailing_slash p && negb (List.length pruned =? 0)) eqn:Et.
    - destruct pruned as [|s l] eqn:Ep; [rewrite andb_false_r in Et; discriminate|].
      destruct (join_string_last (s :: l) Hc ltac:(discriminate)) as [z [c [Ej Hne]]].
      destruct (snoc_cases y') as [->|[y'' [d ->]]].
      + change (x' ++ [separator; separator]) with (x' ++ [separator] ++ [separator]) in E.
        rewrite app_assoc in E. apply app_inj_tail in E. destruct E as [E _].
        rewrite Ej in E. apply app_inj_tail in E. destruct E as [_ E]. congruence.
      + change (x' ++ separator :: separator :: y'' ++ [d])
          with (x' ++ (separator :: separator :: y'') ++ [d]) in E.
        rewrite app_assoc in E. apply app_inj_tail in E. destruct E as [E _].
        exact (join_string_no_double_separator _ _ _ Hc E).
    - rewrite app_nil_r in E. exact (join_string_no_double_separator _ _ _ Hc E). }
  destruct (is_absolute p); cbn [app]; [|apply Hbody].
  intros E.
  destruct (double_separator_after_segment [] _ x y ltac:(intros []) E)
    as [[x' E']|[r E']].
  - exact (Hbody x' y E').
  - destruct pruned as [|s l] eqn:Ep.
    + rewrite andb_false_r in E'. discriminate.
    + destruct (join_string_head (s :: l) Hc ltac:(discriminate)) as [c [z [Ej Hne]]].
      rewrite Ej in E'. cbn [app] in E'. congruence.
Qed.

(** ** Segments of an appended path *)

Lemma read_segments_segment (n : nat) (s tail : std_string) :
  sep_free s ->
  read_segments (S n) (s ++ separator :: tail) = mkSegment s :: read_segments n tail.
Proof.
  intros Hs. cbn [read_segments]. unfold getline.
  destruct (s ++ separator :: tail) as [|c r] eqn:E; [destruct s; discriminate|].
  rewrite <- E, getline_chars_to_separator by exact Hs. reflexivity.
Qed.

Lemma read_segments_last_segment (n : nat) (s : std_string) :
  sep_free s -> s <> [] -> read_segments (S n) s = [mkSegment s].
Proof.
  intros Hs Hne. cbn [read_segments]. unfold getline.
  destruct s as [|c r] eqn:E; [congruence|].
  rewrite <- E, getline_chars_to_end by (rewrite E; exact Hs).
  rewrite read_segments_nil. reflexivity.
Qed.

Lemma split_first_segment (s rest : std_string) :
  sep_free s ->
  split (mkPath (s ++ separator :: rest))
  = mkSegment s :: match rest with
                   | [] => [mkSegment []]
                   | _ :: _ => split (mkPath rest)
                   end.
Proof.
  intros Hs. unfold split; cbn [path]. unfold StdString.size.
  replace (List.length (s ++ separator :: rest))
    with (S (List.length s + List.length rest))
    by (rewrite length_app; cbn [List.length]; lia).
  rewrite read_segments_segment by exact Hs.
  rewrite (read_segments_fuel _ (List.length rest)) by lia.
  destruct rest as [|d rest].
  - rewrite trailing_slash_snoc, Ascii.eqb_refl. reflexivity.
  - rewrite (trailing_slash_app s (separator :: d :: rest)) by discriminate.
    change (separator :: d :: rest) with ([separator] ++ d :: rest).
    rewrite (trailing_slash_app [separator] (d :: rest)) by discriminate.
    destruct (trailing_slash (mkPath (d :: rest))); reflexivity.
Qed.

Lemma split_single_segment (s : std_string) :
  sep_free s -> s <> [] -> split (mkPath s) = [mkSegment s].
Proof.
  intros Hs Hne. unfold split; cbn [path]. unfold StdString.size.
  rewrite trailing_slash_sep_free by exact Hs.
  destruct s as [|c r]; [congruence|].
  apply read_segments_last_segment; [exact Hs|discriminate].
Qed.

Lemma join_string_snoc_empty (l : list Segment) :
  l <> [] -> join_string (l ++ [mkSegment []]) = join_string l ++ [separator].
Proof.
  induction l as [|s l IH]; intros Hl; [congruence|].
  destruct l as [|s' l].
  - cbn. rewrite !app_nil_r. reflexivity.
  - change ((s :: s' :: l) ++ [mkSegment []]) with (s :: (s' :: l) ++ [mkSegment []]).
    change ((s' :: l) ++ [mkSegment []]) with (s' :: l ++ [mkSegment []]) at 1.
    rewrite join_string_cons2.
    change (s' :: l ++ [mkSegment []]) with ((s' :: l) ++ [mkSegment []]).
    rewrite IH by discriminate. rewrite join_string_cons2, <- app_assoc.
    reflexivity.
Qed.

(** C4, amended. For every path beginning with the separator, the first
    element of [split p] is an empty segment for the leading separator;
    after it come the segments of the rest of the string or, when
    nothing follows the separator, the one empty segment of the trailing
    separator, so [split "/"] has 2 elements and [split "/foo/bar/baz/"]
    has 5.  When such a path ends in a separator, the last element is one
    empty segment, and the segments before it join to the path without
    its last separator. *)
Theorem split_absolute (p : Path) :
  is_absolute p = true ->
  hd_error (split p) = Some (mkSegment [])
  /\ split p = mkSegment [] :: match tl (path p) with
                               | [] => [mkSegment []]
                               | _ :: _ => split (mkPath (tl (path p)))
                               end
  /\ (trailing_slash p = true ->
      exists front, split p = front ++ [mkSegment []]
                    /\ path p = join_string front ++ [separator])
  /\ List.length (split (Path_of "/foo/bar/baz/")) = 5
  /\ List.length (split (Path_of "/")) = 2.
Proof.
  intros Ha. destruct p as [[|c x]]; [discriminate|].
  rewrite is_absolute_cons in Ha. apply Ascii.eqb_eq in Ha. subst c.
  assert (E : split (mkPath (separator :: x))
              = mkSegment [] :: match x with
                                | [] => [mkSegment []]
                                | _ :: _ => split (mkPath x)
                                end).
  { apply (split_first_segment [] x). intros []. }
  split; [rewrite E; reflexivity|]. split; [exact E|].
  split; [|split; reflexivity].
  intros Ht. set (stream := separator :: x) in *.
  exists (read_segments (StdString.size stream) stream).
  split; [unfold split; cbn [path]; rewrite Ht; reflexivity|].
  pose proof (join_string_read_segments (StdString.size stream) stream (le_n _)) as Hj.
  rewrite Ht in Hj. rewrite join_string_snoc_empty in Hj; [cbn [path]; congruence|].
  unfold stream. cbn. discriminate.
Qed.

Lemma split_absolute_witness :
  is_absolute (Path_of "/foo/bar/baz/") = true
  /\ hd_error (split (Path_of "/foo/bar/baz/")) = Some (mkSegment [])
  /\ split (Path_of "/foo/bar/baz/")
     = mkSegment [] :: match tl (path (Path_of "/foo/bar/baz/")) with
                       | [] => [mkSegment []]
                       | _ :: _ => split (mkPath (tl (path (Path_of "/foo/bar/baz/"))))
                       end
  /\ (trailing_slash (Path_of "/foo/bar/baz/") = true ->
      exists front, split (Path_of "/foo/bar/baz/") = front ++ [mkSegment []]
                    /\ path (Path_of "/foo/bar/baz/") = join_string front ++ [separator])
  /\ List.length (split (Path_of "/foo/bar/baz/")) = 5
  /\ List.length (split (Path_of "/")) = 2.
Proof.
  split; [reflexivity|].
  apply (split_absolute (Path_of "/foo/bar/baz/")). reflexivity.
Defined.

(** The segments in front of a separator, counting the empty one a
    leading or doubled separator stands for. *)
Lemma read_segments_app (n : nat) (a b : std_string) :
  List.length (a ++ separator :: b) <= n ->
  read_segments n (a ++ separator :: b)
  = (match a with [] => [mkSegment []] | _ :: _ => split (mkPath a) end)
    ++ read_segments n b.
Proof.
  revert a; induction n as [|n IH]; intros a Hn.
  - rewrite length_app in Hn. simpl in Hn. lia.
  - assert (Hb : List.length b <= n) by (rewrite length_app in Hn; simpl in Hn; lia).
    rewrite (read_segments_fuel (S n) n b) by lia.
    destruct a as [|c r]; [reflexivity|].
    pose proof (getline_chars_cases (c :: r)) as [Hf Hc].
    destruct (getline_chars (c :: r)) as [s rest] eqn:Eg. cbn [fst snd] in *.
    destruct Hc as [Hc|[Hc ->]]; rewrite Hc in *.
    + rewrite split_first_segment by exact Hf.
      rewrite <- app_assoc. cbn [app].
      rewrite read_segments_segment by exact Hf.
      rewrite IH
        by (rewrite <- app_assoc, length_app in Hn; cbn [app List.length] in Hn; lia).
      destruct rest; reflexivity.
    + rewrite read_segments_segment by exact Hf.
      rewrite split_single_segment by (exact Hf || (rewrite <- Hc; discriminate)).
      reflexivity.
Qed.

Lemma sanitize_step_empty (relative : bool) (pruned : list Segment) :
  sanitize_step relative pruned (mkSegment []) = pruned.
Proof. reflexivity. Qed.

Lemma fold_sanitize_step_split (relative : bool) (p : Path) (acc : list Segment) :
  fold_left (sanitize_step relative) (split p) acc
  = fold_left (sanitize_step relative)
              (read_segments (StdString.size (path p)) (path p)) acc.
Proof.
  unfold split. destruct (trailing_slash p); [|reflexivity].
  rewrite fold_left_app. reflexivity.
Qed.

(** Pruning an appended path goes on from the pruned base. *)
Lemma prune_split_append (relative : bool) (p s : Path) :
  path p <> [] ->
  prune relative (split (append p s))
  = fold_left (sanitize_step relative) (split s) (prune relative (split p)).
Proof.
  intros Hp. destruct p as [x], s as [y]. cbn [path] in Hp.
  unfold prune. rewrite !fold_sanitize_step_split.
  unfold append. cbn [path]. unfold StdString.size.
  destruct (trailing_slash (mkPath x)) eqn:Et; cbn [negb path].
  - destruct (snoc_cases x) as [->|[x' [c ->]]]; [congruence|].
    rewrite trailing_slash_snoc in Et. apply Ascii.eqb_eq in Et. subst c.
    rewrite <- app_assoc. cbn [app].
    rewrite read_segments_app by apply le_n.
    rewrite (read_segments_app _ x' []) by apply le_n.
    rewrite read_segments_nil, app_nil_r, fold_left_app.
    rewrite (read_segments_fuel _ (List.length y) y)
      by (rewrite ?length_app; cbn [List.length]; lia).
    reflexivity.
  - unfold StdString.push_back. rewrite <- app_assoc. cbn [app].
    rewrite read_segments_app by apply le_n.
    destruct x as [|c r]; [congruence|].
    rewrite fold_left_app, fold_sanitize_step_split.
    rewrite (read_segments_fuel _ (List.length y) y)
      by (rewrite ?length_app; cbn [List.length]; lia).
    reflexivity.
Qed.

Lemma sanitize_append_value (p s : Path) :
  path (sanitize p) <> [] ->
  sanitize (append p s) = sanitize (append (sanitize p) s).
Proof.
  intros Hs.
  assert (Hp : path p <> []).
  { intros E. apply Hs. destruct p as [x]. cbn [path] in E. subst x. reflexivity. }
  pose proof (prune_canonical (negb (is_absolute p)) p) as Hc.
  assert (Ha' : is_absolute (append (sanitize p) s) = is_absolute p).
  { rewrite append_is_absolute by exact Hs.
    rewrite (sanitize_render p). apply is_absolute_render. exact Hc. }
  rewrite (sanitize_render (append p s)), (sanitize_render (append (sanitize p) s)).
  rewrite append_is_absolute, Ha', !append_trailing_slash by assumption.
  rewrite !prune_split_append by assumption.
  rewrite (sanitize_render p).
  rewrite prune_split_render by exact Hc. reflexivity.
Qed.

(** X14. Sanitizing the base first does not change what an appended
    path sanitizes to, provided the base does not sanitize to the empty
    path: for an argument [s] held in another object,
    [p.append(s)] and [sanitize(p).append(s)] sanitize to the same
    path; [p.append(p)] sanitizes to what appending [p] with its separator
    pushed, from another object, to the sanitized base sanitizes to. *)
Theorem sanitize_append (p s : Path) :
  path (sanitize p) <> [] ->
  sanitize (append_to p (Other s)) = sanitize (append_to (sanitize p) (Other s))
  /\ sanitize (append_to p This)
     = sanitize (append_to (sanitize p) (Other (append_to p (Other (mkPath []))))).
Proof.
  intros Hs. split.
  - rewrite !append_to_other. apply sanitize_append_value. exact Hs.
  - rewrite append_to_this, !append_to_other. apply sanitize_append_value. exact Hs.
Qed.

Lemma sanitize_append_witness :
  path (sanitize (Path_of "/a/./b/../c//")) <> []
  /\ sanitize (append_to (Path_of "/a/./b/../c//") (Other (Path_of "../d")))
     = sanitize (append_to (sanitize (Path_of "/a/./b/../c//")) (Other (Path_of "../d")))
  /\ sanitize (append_to (Path_of "/a/./b/../c//") This)
     = sanitize (append_to (sanitize (Path_of "/a/./b/../c//"))
                           (Other (append_to (Path_of "/a/./b/../c//")
                                             (Other (mkPath []))))).
Proof.
  split.
  - vm_compute. discriminate.
  - apply (sanitize_append (Path_of "/a/./b/../c//") (Path_of "../d")).
    vm_compute. discriminate.
Defined.

(** ** parent *)

Lemma directory_render (abs : bool) (l : list Segment) :
  canonical (negb abs) l ->
  render abs false l <> [] ->
  directory (mkPath (render abs false l)) = mkPath (render abs true l).
Proof.
  intros Hc Hne. unfold render in *. cbn [andb] in *.
  destruct l as [|s l].
  - destruct abs; [reflexivity|]. exfalso. apply Hne. reflexivity.
  - destruct (join_string_last (s :: l) (canonical_clean _ _ Hc) ltac:(discriminate))
      as [z [c [E Hc']]].
    rewrite E, !app_nil_r. cbn [List.length Nat.eqb negb].
    rewrite (app_assoc _ z [c]), directory_snoc by exact Hc'.
    rewrite <- !app_assoc. reflexivity.
Qed.

Lemma up_render (p : Path) :
  path p <> [] ->
  up p = mkPath (render (is_absolute p) true
                        (sanitize_step (negb (is_absolute p))
                                       (prune (negb (is_absolute p)) (split p))
                                       dotdot)).
Proof.
  intros Hp. unfold up.
  replace (StdString.size (path p) =? 0) with false
    by (symmetry; apply Nat.eqb_neq; unfold StdString.size;
        destruct (path p); [congruence|discriminate]).
  rewrite (sanitize_render (append p (Path_of ".."))).
  rewrite append_is_absolute, append_trailing_slash, prune_split_append by exact Hp.
  change (split (Path_of "..")) with [dotdot].
  cbn [fold_left path StdString.size Path_of StdString.lit list_ascii_of_string
       List.length Nat.eqb].
  change (trailing_slash (Path_of "..")) with false.
  set (abs := is_absolute p).
  set (l := sanitize_step (negb abs) (prune (negb abs) (split p)) dotdot).
  assert (Hc : canonical (negb abs) l).
  { apply sanitize_step_canonical; [|apply prune_canonical].
    unfold sep_free. cbn. intuition discriminate. }
  destruct (render abs false l) as [|c r] eqn:E.
  - cbn [List.length Nat.eqb]. unfold render in *.
    destruct abs; [discriminate|]. cbn [app] in *.
    apply app_eq_nil in E. destruct E as [E _]. rewrite E.
    destruct l as [|s l']; [reflexivity|].
    destruct (join_string_head (s :: l') (canonical_clean _ _ Hc) ltac:(discriminate))
      as [d [z [E' _]]]. congruence.
  - cbn [List.length Nat.eqb]. rewrite <- E. apply directory_render; [exact Hc|].
    rewrite E. discriminate.
Qed.

Lemma removelast_Forall {A : Type} (P : A -> Prop) (l : list A) :
  Forall P l -> Forall P (removelast l).
Proof.
  intros H. destruct (snoc_cases l) as [->|[l' [x ->]]]; [exact H|].
  rewrite removelast_last. apply Forall_app in H. tauto.
Qed.

(** X15. [parent] of a non-empty path, told from what the path
    sanitizes to: with the sanitized path built from the segments
    [pruned], the parent is built from [pruned] without its last
    segment, marked as a directory; only on a relative path with no
    segment left, or only [".."] segments, a [".."] is added instead. *)
Theorem parent_of_sanitized (p : Path) :
  path p <> [] ->
  exists pruned,
    canonical (negb (is_absolute p)) pruned
    /\ path (sanitize p) = render (is_absolute p) (trailing_slash p) pruned
    /\ path (parent p)
       = render (is_absolute p) true
           (if is_absolute p then removelast pruned
            else if (List.length pruned =? 0)
                    || StdString.eqb (segment (last pruned (mkSegment []))) (str "..")
                 then pruned ++ [dotdot]
                 else removelast pruned).
Proof.
  intros Hp. exists (prune (negb (is_absolute p)) (split p)).
  split; [apply prune_canonical|]. split; [rewrite sanitize_render; reflexivity|].
  unfold parent. destruct p as [x]. cbn [path] in *. rewrite up_render by exact Hp.
  cbn [path]. f_equal. set (pruned := prune _ _).
  destruct (is_absolute (mkPath x)); cbn [negb].
  - apply sanitize_step_dotdot_absolute. reflexivity.
  - rewrite sanitize_step_dotdot_relative by reflexivity.
    unfold back_is_not_dotdot.
    destruct (List.length pruned =? 0); [reflexivity|].
    destruct (StdString.eqb (segment (last pruned (mkSegment []))) (str ".."));
      reflexivity.
Qed.

Lemma parent_of_sanitized_witness :
  path (Path_of "/usr/./lib/../share") <> []
  /\ exists pruned,
       canonical (negb (is_absolute (Path_of "/usr/./lib/../share"))) pruned
       /\ path (sanitize (Path_of "/usr/./lib/../share"))
          = render (is_absolute (Path_of "/usr/./lib/../share"))
                   (trailing_slash (Path_of "/usr/./lib/../share")) pruned
       /\ path (parent (Path_of "/usr/./lib/../share"))
          = render (is_absolute (Path_of "/usr/./lib/../share")) true
              (if is_absolute (Path_of "/usr/./lib/../share") then removelast pruned
               else if (List.length pruned =? 0)
                       || StdString.eqb (segment (last pruned (mkSegment [])))
                                        (str "..")
                    then pruned ++ [dotdot]
                    else removelast pruned).
Proof.
  split.
  - vm_compute. discriminate.
  - apply (parent_of_sanitized (Path_of "/usr/./lib/../share")).
    vm_compute. discriminate.
Defined.

(** X16. [parent] keeps a path relative or absolute, and what it
    returns is either empty or ends in a separator. *)
Theorem parent_is_directory (p : Path) :
  is_absolute (parent p) = is_absolute p
  /\ (path (parent p) = [] \/ trailing_slash (parent p) = true).
Proof.
  destruct p as [[|c x]]; [split; [reflexivity|right; reflexivity]|].
  unfold parent; cbn [path]. rewrite up_render by discriminate.
  set (p := mkPath (c :: x)). set (abs := is_absolute p).
  set (l := sanitize_step (negb abs) (prune (negb abs) (split p)) dotdot).
  assert (Hc : canonical (negb abs) l).
  { apply sanitize_step_canonical; [|apply prune_canonical].
    unfold sep_free. cbn. intuition discriminate. }
  split; [apply is_absolute_render; exact Hc|].
  rewrite trailing_slash_render by exact Hc.
  destruct l as [|s l'].
  - destruct abs; [right; reflexivity|left; reflexivity].
  - right. reflexivity.
Qed.

Lemma read_segments_length (n : nat) (stream : std_string) :
  List.length (read_segments n stream) <= n.
Proof.
  revert stream; induction n as [|n IH]; intros stream; simpl; [lia|].
  destruct (getline stream) as [[s rest]|]; simpl; [|lia].
  specialize (IH rest). lia.
Qed.

Lemma split_length (p : Path) : List.length (split p) <= S (StdString.size (path p)).
Proof.
  unfold split. pose proof (read_segments_length (StdString.size (path p)) (path p)).
  destruct (trailing_slash p); [rewrite length_app; simpl|]; lia.
Qed.

Lemma sanitize_step_length (relative : bool) (pruned : list Segment) (s : Segment) :
  List.length (sanitize_step relative pruned s) <= S (List.length pruned).
Proof.
  assert (Hr : List.length (removelast pruned) <= S (List.length pruned)).
  { destruct (snoc_cases pruned) as [->|[l [x ->]]]; [simpl; lia|].
    rewrite removelast_last, length_app. simpl. lia. }
  unfold sanitize_step.
  repeat match goal with
         | |- context [if ?b then _ else _] => destruct b
         end; rewrite ?length_app; simpl; lia.
Qed.

Lemma fold_sanitize_step_length (relative : bool) (segments pruned : list Segment) :
  List.length (fold_left (sanitize_step relative) segments pruned)
  <= List.length pruned + List.length segments.
Proof.
  revert pruned; induction segments as [|s segments IH]; intros pruned; simpl; [lia|].
  specialize (IH (sanitize_step relative pruned s)).
  pose proof (sanitize_step_length relative pruned s). lia.
Qed.

Lemma prune_length (relative : bool) (p : Path) :
  List.length (prune relative (split p)) <= S (StdString.size (path p)).
Proof.
  unfold prune.
  pose proof (fold_sanitize_step_length relative (split p) []).
  pose proof (split_length p). simpl in *. lia.
Qed.

Lemma canonical_absolute_removelast (l : list Segment) :
  canonical false l -> canonical false (removelast l).
Proof.
  intros [k [l' [-> [Hl Hk]]]]. rewrite (Hk eq_refl). cbn [repeat app].
  exists 0, (removelast l'). repeat split. apply removelast_Forall. exact Hl.
Qed.

Lemma parent_absolute (p : Path) :
  is_absolute p = true ->
  parent p = mkPath (render true true (removelast (prune false (split p)))).
Proof.
  intros Ha. destruct p as [[|c x]]; [discriminate|].
  unfold parent; cbn [path]. rewrite up_render by discriminate.
  rewrite Ha. cbn [negb].
  rewrite sanitize_step_dotdot_absolute by reflexivity. reflexivity.
Qed.

Lemma parent_render_absolute (l : list Segment) :
  canonical false l ->
  parent (mkPath (render true true l)) = mkPath (render true true (removelast l)).
Proof.
  intros Hc. rewrite parent_absolute by (apply (is_absolute_render true); exact Hc).
  pose proof (prune_split_render true true l Hc) as E. cbn [negb] in E.
  rewrite E. reflexivity.
Qed.

Lemma iter_parent_render (n : nat) (l : list Segment) :
  canonical false l ->
  Nat.iter n parent (mkPath (render true true l))
  = mkPath (render true true (Nat.iter n (@removelast Segment) l)).
Proof.
  intros Hc. induction n as [|n IH]; [reflexivity|].
  rewrite !Nat.iter_succ, IH.
  apply parent_render_absolute.
  clear IH. induction n as [|n IHn]; [exact Hc|].
  rewrite Nat.iter_succ. apply canonical_absolute_removelast. exact IHn.
Qed.

Lemma iter_removelast_nil {A : Type} (n : nat) (l : list A) :
  List.length l <= n -> Nat.iter n (@removelast A) l = [].
Proof.
  revert l; induction n as [|n IH]; intros l Hl.
  - destruct l; [reflexivity|simpl in Hl; lia].
  - rewrite Nat.iter_succ_r. apply IH.
    destruct (snoc_cases l) as [->|[l' [x ->]]]; [simpl; lia|].
    rewrite removelast_last. rewrite length_app in Hl. simpl in Hl. lia.
Qed.

(** X17. Going up from an absolute path reaches the root and stays
    there: more [parent] steps than the path has characters give
    ["/"]. *)
Theorem parent_reaches_root (p : Path) (n : nat) :
  is_absolute p = true ->
  StdString.size (path p) < n ->
  Nat.iter n parent p = Path_of "/".
Proof.
  intros Ha Hn. destruct n as [|n]; [lia|].
  rewrite Nat.iter_succ_r, parent_absolute by exact Ha.
  pose proof (prune_canonical false p) as Hc.
  pose proof (prune_length false p) as Hl.
  rewrite iter_parent_render by (apply canonical_absolute_removelast; exact Hc).
  rewrite iter_removelast_nil; [reflexivity|].
  destruct (snoc_cases (prune false (split p))) as [E|[l' [x E]]]; rewrite E in *.
  - simpl. lia.
  - rewrite removelast_last. rewrite length_app in Hl. simpl in Hl. lia.
Qed.

Lemma parent_reaches_root_witness :
  is_absolute (Path_of "/a/../b/c") = true
  /\ StdString.size (path (Path_of "/a/../b/c")) < 10
  /\ Nat.iter 10 parent (Path_of "/a/../b/c") = Path_of "/".
Proof.
  split; [reflexivity|]. split; [vm_compute; lia|].
  apply (parent_reaches_root (Path_of "/a/../b/c") 10); [reflexivity|vm_compute; lia].
Defined.

(** ** cwd, absolute and equivalent *)

Lemma Path_eqb_eq (a b : Path) : Path_eqb a b = true <-> a = b.
Proof.
  unfold Path_eqb. rewrite StdString_eqb_eq. destruct a, b. cbn [path].
  split; congruence.
Qed.

Section WorkingDirectory.

Context {FS : Type} `{OS FS}.

Lemma trailing_slash_cwd (fs : FS) : trailing_slash (cwd fs) = true.
Proof.
  unfold cwd, directory, StdString.push_back. rewrite trailing_slash_snoc.
  apply Ascii.eqb_refl.
Qed.

Lemma absolute_of_absolute (fs : FS) (p : Path) :
  is_absolute p = true -> absolute fs p = p.
Proof. intros Ha. unfold absolute. rewrite Ha. reflexivity. Qed.

Lemma absolute_of_relative (fs : FS) (p : Path) :
  is_absolute p = false -> path (absolute fs p) = path (cwd fs) ++ path p.
Proof.
  intros Ha. unfold absolute, join2, append. rewrite Ha, trailing_slash_cwd.
  reflexivity.
Qed.

Lemma cwd_nonempty (fs : FS) : path (cwd fs) <> [].
Proof.
  unfold cwd, directory, StdString.push_back. cbn [path].
  intros E. apply app_eq_nil in E. destruct E as [_ E]. discriminate.
Qed.

Lemma absolute_nonempty (fs : FS) (p : Path) : path (absolute fs p) <> [].
Proof.
  destruct (is_absolute p) eqn:E.
  - rewrite absolute_of_absolute by exact E. destruct p as [[|c x]]; discriminate.
  - rewrite absolute_of_relative by exact E. intros E'.
    apply app_eq_nil in E'. destruct E' as [E' _]. exact (cwd_nonempty fs E').
Qed.

(** X18. [cwd] is never the empty path and always ends in a separator;
    it is the root ["/"] when [getcwd] fails or returns an empty string,
    and otherwise it is absolute exactly when what [getcwd] returns
    is. *)
Theorem cwd_is_directory (fs : FS) :
  path (cwd fs) <> []
  /\ trailing_slash (cwd fs) = true
  /\ is_absolute (cwd fs)
     = match os_getcwd fs with
       | Some buf => is_absolute (mkPath buf) || (StdString.size buf =? 0)
       | None => true
       end
  /\ (os_getcwd fs = None \/ os_getcwd fs = Some [] -> cwd fs = Path_of "/").
Proof.
  repeat split.
  - apply cwd_nonempty.
  - apply trailing_slash_cwd.
  - unfold cwd. rewrite directory_is_absolute_or_empty.
    destruct (os_getcwd fs); reflexivity.
  - unfold cwd. intros [E|E]; rewrite E; reflexivity.
Qed.

(** X19. When the working directory is absolute, [absolute] returns an
    absolute path and applying it again changes nothing; an absolute
    path is returned as it is, a relative path comes back with the
    working directory in front, and the empty path gives the working
    directory itself. *)
Theorem absolute_spec (fs : FS) (p : Path) :
  is_absolute (cwd fs) = true ->
  is_absolute (absolute fs p) = true
  /\ absolute fs (absolute fs p) = absolute fs p
  /\ (is_absolute p = true -> absolute fs p = p)
  /\ (is_absolute p = false -> path (absolute fs p) = path (cwd fs) ++ path p)
  /\ absolute fs (Path_of "") = cwd fs.
Proof.
  intros Hcwd.
  assert (Ha : is_absolute (absolute fs p) = true).
  { destruct (is_absolute p) eqn:E; [rewrite absolute_of_absolute; assumption|].
    unfold absolute, join2. rewrite E. cbn [negb].
    rewrite append_is_absolute; [exact Hcwd|].
    destruct (cwd fs) as [[|c x]]; discriminate. }
  repeat split.
  - exact Ha.
  - apply absolute_of_absolute. exact Ha.
  - apply absolute_of_absolute.
  - apply absolute_of_relative.
  - pose proof (absolute_of_relative fs (Path_of "") eq_refl) as E.
    cbn [path Path_of StdString.lit list_ascii_of_string] in E.
    rewrite app_nil_r in E. destruct (absolute fs (Path_of "")), (cwd fs).
    cbn [path] in E. congruence.
Qed.

Lemma equivalent_iff (fs : FS) (p q : Path) :
  equivalent fs p q = true
  <-> sanitize (absolute fs p) = sanitize (absolute fs q).
Proof.
  unfold equivalent. rewrite Path_eqb_eq. destruct p, q. reflexivity.
Qed.

(** X20. [equivalent] is reflexive, symmetric and transitive, and an
    absolute path is equivalent to what it sanitizes to. *)
Theorem equivalent_equivalence (fs : FS) :
  (forall p, equivalent fs p p = true)
  /\ (forall p q, equivalent fs p q = equivalent fs q p)
  /\ (forall p q r, equivalent fs p q = true -> equivalent fs q r = true ->
                    equivalent fs p r = true)
  /\ (forall p, is_absolute p = true -> equivalent fs p (sanitize p) = true).
Proof.
  repeat split.
  - intros p. apply equivalent_iff. reflexivity.
  - intros p q. destruct (equivalent fs q p) eqn:E.
    + apply equivalent_iff. symmetry. apply equivalent_iff. exact E.
    + destruct (equivalent fs p q) eqn:E'; [|reflexivity].
      apply equivalent_iff in E'. symmetry in E'. apply equivalent_iff in E'.
      congruence.
  - intros p q r Hpq Hqr. apply equivalent_iff.
    apply equivalent_iff in Hpq, Hqr. congruence.
  - intros p Ha. apply equivalent_iff.
    assert (Hs : is_absolute (sanitize p) = true).
    { rewrite (sanitize_render p), is_absolute_render by apply prune_canonical.
      exact Ha. }
    rewrite !absolute_of_absolute by assumption.
    rewrite (sanitize_render p) at 2.
    rewrite sanitize_render_fixed by apply prune_canonical.
    apply sanitize_render.
Qed.

(** X21. When the working directory is absolute, the working directory
    and the empty path are equivalent, in both orders, though they are
    not equal. *)
Theorem equivalent_cwd_empty (fs : FS) :
  is_absolute (cwd fs) = true ->
  equivalent fs (cwd fs) (Path_of "") = true
  /\ equivalent fs (Path_of "") (cwd fs) = true
  /\ Path_eqb (cwd fs) (Path_of "") = false.
Proof.
  intros Hcwd.
  assert (E : absolute fs (Path_of "") = cwd fs).
  { pose proof (absolute_of_relative fs (Path_of "") eq_refl) as E.
    cbn [path Path_of StdString.lit list_ascii_of_string] in E.
    rewrite app_nil_r in E. destruct (absolute fs (Path_of "")), (cwd fs).
    cbn [path] in E. congruence. }
  repeat split.
  - apply equivalent_iff. rewrite E, absolute_of_absolute by exact Hcwd. reflexivity.
  - apply equivalent_iff. rewrite E, absolute_of_absolute by exact Hcwd. reflexivity.
  - destruct (Path_eqb (cwd fs) (Path_of "")) eqn:Eq; [|reflexivity].
    apply Path_eqb_eq in Eq. rewrite Eq in Hcwd. discriminate.
Qed.

End WorkingDirectory.

Lemma absolute_spec_witness :
  is_absolute (cwd ToyFS.linked_tree) = true
  /\ is_absolute (absolute ToyFS.linked_tree (Path_of "foo/real")) = true
  /\ absolute ToyFS.linked_tree (absolute ToyFS.linked_tree (Path_of "foo/real"))
     = absolute ToyFS.linked_tree (Path_of "foo/real")
  /\ (is_absolute (Path_of "foo/real") = true ->
      absolute ToyFS.linked_tree (Path_of "foo/real") = Path_of "foo/real")
  /\ (is_absolute (Path_of "foo/real") = false ->
      path (absolute ToyFS.linked_tree (Path_of "foo/real"))
      = path (cwd ToyFS.linked_tree) ++ path (Path_of "foo/real"))
  /\ absolute ToyFS.linked_tree (Path_of "") = cwd ToyFS.linked_tree.
Proof.
  split; [reflexivity|].
  apply (absolute_spec ToyFS.linked_tree (Path_of "foo/real")). reflexivity.
Defined.

Lemma equivalent_cwd_empty_witness :
  is_absolute (cwd ToyFS.linked_tree) = true
  /\ equivalent ToyFS.linked_tree (cwd ToyFS.linked_tree) (Path_of "") = true
  /\ equivalent ToyFS.linked_tree (Path_of "") (cwd ToyFS.linked_tree) = true
  /\ Path_eqb (cwd ToyFS.linked_tree) (Path_of "") = false.
Proof.
  split; [reflexivity|].
  apply (equivalent_cwd_empty ToyFS.linked_tree). reflexivity.
Defined.

(** ** listdir and recursive_listdir *)

Section Listing.

Context {FS : Type} `{OS FS}.

Lemma listdir_loop (base : Path) (entries : list std_string) (results : list Path) :
  fold_left
    (fun results d_name =>
       if StdString.eqb d_name (str "..") then results
       else if StdString.eqb d_name (str ".") then results
       else results ++ [relative base (mkPath d_name)])
    entries results
  = results ++ map (fun d_name => relative base (mkPath d_name))
                   (filter not_dot_entry entries).
Proof.
  revert results; induction entries as [|e entries IH]; intros results.
  - symmetry. apply app_nil_r.
  - cbn [fold_left filter]. unfold not_dot_entry at 1.
    destruct (StdString.eqb e (str "..")); [apply IH|].
    destruct (StdString.eqb e (str ".")); [apply IH|].
    cbn [negb andb map]. rewrite IH, <- app_assoc. reflexivity.
Qed.

Lemma listdir_map (fs : FS) (p : Path) :
  listdir fs p
  = match os_readdir fs (StdString.c_str (path (absolute fs p))) with
    | None => []
    | Some entries =>
        map (fun d_name => relative (absolute fs p) (mkPath d_name))
            (filter not_dot_entry entries)
    end.
Proof.
  unfold listdir. destruct (os_readdir fs _); [|reflexivity].
  apply (listdir_loop _ _ []).
Qed.

(** X22. When the directory can be read and none of its entry names
    holds a separator, the file names of the paths [listdir] returns are
    the entry names other than ["."] and [".."], in the order read, and
    every returned path is absolute exactly when the listed directory,
    made absolute, is. *)
Theorem listdir_filenames (fs : FS) (p : Path) (entries : list std_string) :
  os_readdir fs (StdString.c_str (path (absolute fs p))) = Some entries ->
  Forall sep_free entries ->
  map filename (listdir fs p) = filter not_dot_entry entries
  /\ Forall (fun q => is_absolute q = is_absolute (absolute fs p)) (listdir fs p).
Proof.
  intros Hr Hs. rewrite listdir_map, Hr.
  pose proof (absolute_nonempty fs p) as Hbase.
  assert (Hf : Forall sep_free (filter not_dot_entry entries)).
  { apply Forall_forall. intros e He. apply filter_In in He.
    rewrite Forall_forall in Hs. apply Hs. tauto. }
  induction (filter not_dot_entry entries) as [|e l IH]; [split; constructor|].
  inversion Hf as [|? ? He Hl]; subst. destruct (IH Hl) as [IH1 IH2].
  assert (Hrel : relative (absolute fs p) (mkPath e) = append (absolute fs p) (mkPath e)).
  { unfold relative. rewrite (sep_free_relative (mkPath e) He). reflexivity. }
  cbn [map]. rewrite Hrel. split.
  - rewrite (filename_append_sep_free _ (mkPath e) He), IH1. reflexivity.
  - constructor; [apply append_is_absolute; exact Hbase|exact IH2].
Qed.

End Listing.

Lemma listdir_filenames_witness :
  os_readdir ToyFS.linked_tree
             (StdString.c_str (path (absolute ToyFS.linked_tree (Path_of "foo"))))
  = Some [str "."; str ".."; str "real"; str "l"]
  /\ Forall sep_free [str "."; str ".."; str "real"; str "l"]
  /\ map filename (listdir ToyFS.linked_tree (Path_of "foo"))
     = filter not_dot_entry [str "."; str ".."; str "real"; str "l"]
  /\ Forall (fun q => is_absolute q
                      = is_absolute (absolute ToyFS.linked_tree (Path_of "foo")))
            (listdir ToyFS.linked_tree (Path_of "foo")).
Proof.
  assert (Hr : os_readdir ToyFS.linked_tree
                 (StdString.c_str (path (absolute ToyFS.linked_tree (Path_of "foo"))))
               = Some [str "."; str ".."; str "real"; str "l"]) by reflexivity.
  assert (Hs : Forall sep_free [str "."; str ".."; str "real"; str "l"])
    by (repeat constructor; unfold sep_free; cbn; intuition discriminate).
  split; [exact Hr|]. split; [exact Hs|].
  apply (listdir_filenames ToyFS.linked_tree (Path_of "foo") _ Hr Hs).
Defined.

Section RecursiveListing.

Context {FS : Type} `{OS FS}.

Lemma visit_items (fs : FS) (items results to_visit : list Path) :
  fold_left
    (fun '(results, to_visit) item =>
       (results ++ [item],
        if is_directory fs item then to_visit ++ [item] else to_visit))
    items (results, to_visit)
  = (results ++ items, to_visit ++ filter (is_directory fs) items).
Proof.
  revert results to_visit; induction items as [|item items IH];
    intros results to_visit.
  - cbn. rewrite !app_nil_r. reflexivity.
  - cbn [fold_left filter]. rewrite IH.
    destruct (is_directory fs item); rewrite <- !app_assoc; reflexivity.
Qed.

Lemma recursive_listdir_loop_nil (fuel : nat) (fs : FS) (results : list Path) :
  recursive_listdir_loop fuel fs results [] = Some results.
Proof. destruct fuel; reflexivity. Qed.

Lemma recursive_listdir_loop_snoc (fuel : nat) (fs : FS)
    (results to_visit : list Path) (current_dir : Path) :
  recursive_listdir_loop (S fuel) fs results (to_visit ++ [current_dir])
  = recursive_listdir_loop fuel fs
      (results ++ listdir fs current_dir)
      (to_visit ++ filter (is_directory fs) (listdir fs current_dir)).
Proof.
  cbn [recursive_listdir_loop].
  destruct (to_visit ++ [current_dir]) as [|d l] eqn:E;
    [destruct to_visit; discriminate|].
  rewrite <- E, last_last, removelast_last, visit_items. reflexivity.
Qed.

Lemma recursive_listdir_loop_closure (fs : FS) (p : Path) (fuel : nat) :
  forall results to_visit r,
    (forall q, In q results ->
       exists d, (d = p \/ (In d results /\ is_directory fs d = true))
                 /\ In q (listdir fs d)) ->
    (forall d, In d to_visit ->
       d = p \/ (In d results /\ is_directory fs d = true)) ->
    (forall d, d = p \/ (In d results /\ is_directory fs d = true) ->
       In d to_visit \/ incl (listdir fs d) results) ->
    recursive_listdir_loop fuel fs results to_visit = Some r ->
    (forall q, In q r ->
       exists d, (d = p \/ (In d r /\ is_directory fs d = true))
                 /\ In q (listdir fs d))
    /\ (forall d, d = p \/ (In d r /\ is_directory fs d = true) ->
          incl (listdir fs d) r).
Proof.
  induction fuel as [|fuel IH]; intros results to_visit r I1 I2 I3 E;
    destruct (snoc_cases to_visit) as [->|[v [d0 ->]]].
  - rewrite recursive_listdir_loop_nil in E.
    assert (Er : results = r) by congruence. subst r. split; [exact I1|].
    intros d Hd. destruct (I3 d Hd) as [Hv|Hi]; [destruct Hv|exact Hi].
  - cbn in E. destruct (v ++ [d0]) eqn:Ev; [destruct v; discriminate Ev|discriminate E].
  - rewrite recursive_listdir_loop_nil in E.
    assert (Er : results = r) by congruence. subst r. split; [exact I1|].
    intros d Hd. destruct (I3 d Hd) as [Hv|Hi]; [destruct Hv|exact Hi].
  - rewrite recursive_listdir_loop_snoc in E.
    assert (Hd0 : d0 = p \/ (In d0 results /\ is_directory fs d0 = true))
      by (apply I2; apply in_or_app; right; left; reflexivity).
    assert (Hmono : forall d, d = p \/ (In d results /\ is_directory fs d = true) ->
                      d = p \/ (In d (results ++ listdir fs d0)
                                /\ is_directory fs d = true)).
    { intros d [Hd|[Hd Hdir]]; [left; exact Hd|right].
      split; [apply in_or_app; left; exact Hd|exact Hdir]. }
    apply (IH _ _ _) in E; [exact E| | |].
    + intros q Hq. apply in_app_or in Hq. destruct Hq as [Hq|Hq].
      * destruct (I1 q Hq) as [d [Hd Hin]]. exists d. split; [apply Hmono; exact Hd|exact Hin].
      * exists d0. split; [apply Hmono; exact Hd0|exact Hq].
    + intros d Hd. apply in_app_or in Hd. destruct Hd as [Hd|Hd].
      * apply Hmono. apply I2. apply in_or_app. left. exact Hd.
      * apply filter_In in Hd. destruct Hd as [Hd Hdir]. right.
        split; [apply in_or_app; right; exact Hd|exact Hdir].
    + intros d [Hd|[Hd Hdir]].
      * destruct (I3 d (or_introl Hd)) as [Hv|Hi].
        -- apply in_app_or in Hv. destruct Hv as [Hv|[<-|[]]].
           ++ left. apply in_or_app. left. exact Hv.
           ++ right. apply incl_appr. apply incl_refl.
        -- right. apply incl_appl. exact Hi.
      * apply in_app_or in Hd. destruct Hd as [Hd|Hd].
        -- destruct (I3 d (or_intror (conj Hd Hdir))) as [Hv|Hi].
           ++ apply in_app_or in Hv. destruct Hv as [Hv|[<-|[]]].
              ** left. apply in_or_app. left. exact Hv.
              ** right. apply incl_appr. apply incl_refl.
           ++ right. apply incl_appl. exact Hi.
        -- left. apply in_or_app. right. apply filter_In. auto.
Qed.

(** X23. What [recursive_listdir] returns, when its loop ends, is closed
    under listing and holds nothing else: every returned path is listed
    by [listdir] for the root or for a returned path that is a
    directory, and everything [listdir] lists for the root or for a
    returned directory is returned. *)
Theorem recursive_listdir_closure (fuel : nat) (fs : FS) (p : Path) (r : list Path) :
  recursive_listdir fuel fs p = Some r ->
  (forall q, In q r ->
     exists d, (d = p \/ (In d r /\ is_directory fs d = true))
               /\ In q (listdir fs d))
  /\ (forall d, d = p \/ (In d r /\ is_directory fs d = true) ->
        incl (listdir fs d) r).
Proof.
  intros E. unfold recursive_listdir in E.
  apply (recursive_listdir_loop_closure fs p fuel [] [p] r); try exact E.
  - intros q [].
  - intros d [<-|[]]. left. reflexivity.
  - intros d [->|[[] _]]. left. left. reflexivity.
Qed.

End RecursiveListing.

Lemma recursive_listdir_closure_witness :
  let r := [Path_of "/w/foo/real"; Path_of "/w/foo/l";
            Path_of "/w/foo/l/x"; Path_of "/w/foo/real/x"] in
  recursive_listdir 10 ToyFS.linked_tree (Path_of "foo") = Some r
  /\ (forall q, In q r ->
        exists d, (d = Path_of "foo"
                   \/ (In d r /\ is_directory ToyFS.linked_tree d = true))
                  /\ In q (listdir ToyFS.linked_tree d))
  /\ (forall d, d = Path_of "foo"
                \/ (In d r /\ is_directory ToyFS.linked_tree d = true) ->
        incl (listdir ToyFS.linked_tree d) r).
Proof.
  intros r.
  assert (E : recursive_listdir 10 ToyFS.linked_tree (Path_of "foo") = Some r)
    by reflexivity.
  split; [exact E|].
  apply (recursive_listdir_closure 10 ToyFS.linked_tree (Path_of "foo") r E).
Defined.

(** ** rmdirs, whatever the filesystem *)

Section Removal.

Context {FS : Type} `{OS FS}.

Variable std_sort : (Path -> Path -> bool) -> list Path -> list Path.
Hypothesis std_sort_permutation :
  forall comp l, Permutation l (std_sort comp l).


Lemma recursive_listdir_loop_visits_list (fs : FS) (ds : list Path) :
  Forall (fun d => forall results to_visit,
            exists k results',
              forall fuel,
                recursive_listdir_loop (k + fuel) fs results (to_visit ++ [d])
                = recursive_listdir_loop fuel fs results' to_visit) ds ->
  forall results to_visit,
    exists k results',
      forall fuel,
        recursive_listdir_loop (k + fuel) fs results (to_visit ++ ds)
        = recursive_listdir_loop fuel fs results' to_visit.
Proof.
  induction ds as [|d ds IH] using rev_ind; intros Hd results to_visit.
  - exists 0, results. intros fuel. rewrite app_nil_r. reflexivity.
  - apply Forall_app in Hd. destruct Hd as [Hds Hd]. apply Forall_inv in Hd.
    destruct (Hd results (to_visit ++ ds)) as [k1 [results1 E1]].
    destruct (IH Hds results1 to_visit) as [k2 [results2 E2]].
    exists (k1 + k2), results2. intros fuel.
    rewrite <- Nat.add_assoc, app_assoc, E1. apply E2.
Qed.

(** A directory whose listing ends is dealt with in finitely many
    rounds of the loop, which then goes on with the rest of the stack. *)
Lemma recursive_listdir_loop_visits (fs : FS) (d : Path) :
  listing_ends fs d ->
  forall results to_visit,
    exists k results',
      forall fuel,
        recursive_listdir_loop (k + fuel) fs results (to_visit ++ [d])
        = recursive_listdir_loop fuel fs results' to_visit.
Proof.
  induction 1 as [d _ IH]. intros results to_visit.
  destruct (recursive_listdir_loop_visits_list fs
              (filter (is_directory fs) (listdir fs d)))
    with (results := results ++ listdir fs d) (to_visit := to_visit)
    as [k [results' E]].
  - apply Forall_forall. intros q Hq. apply filter_In in Hq.
    destruct Hq as [Hq Hdir]. apply IH; assumption.
  - exists (S k), results'. intros fuel. cbn [Nat.add].
    rewrite recursive_listdir_loop_snoc. apply E.
Qed.

Lemma recursive_listdir_ends (fs : FS) (p : Path) :
  listing_ends fs p ->
  exists fuel0 listing,
    forall fuel, fuel0 <= fuel -> recursive_listdir fuel fs p = Some listing.
Proof.
  intros Hp.
  destruct (recursive_listdir_loop_visits fs p Hp [] []) as [k [listing E]].
  exists k, listing. intros fuel Hf. unfold recursive_listdir.
  replace fuel with (k + (fuel - k)) by lia.
  change [p] with ([] ++ [p]). rewrite E. apply recursive_listdir_loop_nil.
Qed.

Lemma rmdirs_ignore_errors_of_listing
    (fuel : nat) (fs : FS) (p : Path) (listing : list Path) :
  recursive_listdir fuel fs p = Some listing ->
  exists ok fs' trace,
    rmdirs std_sort fuel fs p true = Some (ok, fs', trace)
    /\ Permutation (listing ++ [p]) (map fst trace)
    /\ In p (map fst trace).
Proof.
  intros E. unfold rmdirs, rmdirs_contents. rewrite E.
  set (contents := std_sort _ (listing ++ [p])).
  destruct (rmdirs_loop_ignore_errors contents fs true []) as [fs' [calls [El Hc]]].
  exists (last (map snd calls) true), fs', calls.
  assert (Hp : Permutation (listing ++ [p]) (map fst calls))
    by (rewrite Hc; apply std_sort_permutation).
  repeat split; [rewrite El; reflexivity|exact Hp|].
  apply (Permutation_in _ Hp). apply in_or_app. right. left. reflexivity.
Qed.


(** X24. Where the recursive listing of the root comes to an end (no
    directory below the root leads back to itself), [rmdirs] with
    [ignore_errors] set returns, and it has made exactly one removal call
    for every entry it collected, the root among them: the paths called
    are the recursive listing with the root added, in some order. *)
Theorem rmdirs_ignore_errors_calls_every_entry (fs : FS) (p : Path) :
  listing_ends fs p ->
  exists fuel0 listing,
    forall fuel,
      fuel0 <= fuel ->
      recursive_listdir fuel fs p = Some listing
      /\ exists ok fs' trace,
           rmdirs std_sort fuel fs p true = Some (ok, fs', trace)
           /\ Permutation (listing ++ [p]) (map fst trace)
           /\ In p (map fst trace).
Proof.
  intros Hp. destruct (recursive_listdir_ends fs p Hp) as [fuel0 [listing E]].
  exists fuel0, listing. intros fuel Hf. specialize (E fuel Hf).
  split; [exact E|]. apply rmdirs_ignore_errors_of_listing. exact E.
Qed.


(** X26. [rmdirs] on a path that cannot be listed (a plain file, a
    missing name) makes a single removal call, on that path, and
    returns its outcome, with or without [ignore_errors]. *)
Theorem rmdirs_unlistable (fuel : nat) (fs : FS) (p : Path) (ignore_errors : bool) :
  os_readdir fs (StdString.c_str (path (absolute fs p))) = None ->
  recursive_listdir (S fuel) fs p = Some []
  /\ rmdirs std_sort (S fuel) fs p ignore_errors
     = Some (let '(ok, fs') :=
               if is_directory fs p
               then os_rmdir fs (StdString.c_str (path p))
               else os_unlink fs (StdString.c_str (path p)) in
             (ok, fs', [(p, ok)])).
Proof.
  intros Hr.
  assert (El : recursive_listdir (S fuel) fs p = Some []).
  { unfold recursive_listdir. cbn [recursive_listdir_loop last removelast].
    unfold listdir. rewrite Hr. cbn [fold_left]. destruct fuel; reflexivity. }
  split; [exact El|].
  unfold rmdirs, rmdirs_contents. rewrite El. cbn [app].
  set (comp := fun a b : Path => _).
  rewrite (Permutation_length_1_inv (std_sort_permutation comp [p])).
  cbn [rmdirs_loop].
  destruct (if is_directory fs p
            then os_rmdir fs (StdString.c_str (path p))
            else os_unlink fs (StdString.c_str (path p))) as [ok fs1].
  cbn [app]. destruct (negb ok && negb ignore_errors); reflexivity.
Qed.

End Removal.

Lemma ToyFS_insert_permutation (comp : Path -> Path -> bool) (x : Path) (l : list Path) :
  Permutation (x :: l) (ToyFS.insert comp x l).
Proof.
  induction l as [|y l IH]; cbn [ToyFS.insert]; [apply Permutation_refl|].
  destruct (comp x y); [apply Permutation_refl|].
  eapply perm_trans; [apply perm_swap|]. apply perm_skip. exact IH.
Qed.

Lemma ToyFS_sort_permutation (comp : Path -> Path -> bool) (l : list Path) :
  Permutation l (ToyFS.sort comp l).
Proof.
  induction l as [|x l IH]; [apply Permutation_refl|].
  unfold ToyFS.sort. cbn [fold_right].
  eapply perm_trans; [apply perm_skip; exact IH|].
  apply ToyFS_insert_permutation.
Qed.

Lemma linked_tree_listing_ends : listing_ends ToyFS.linked_tree (Path_of "foo").
Proof.
  constructor. intros q Hq Hdir. vm_compute in Hq.
  destruct Hq as [<-|[<-|[]]]; constructor; intros q' Hq' Hdir';
    vm_compute in Hq'; destruct Hq' as [<-|[]]; vm_compute in Hdir';
    discriminate Hdir'.
Qed.

Lemma rmdirs_ignore_errors_calls_every_entry_witness :
  listing_ends ToyFS.linked_tree (Path_of "foo")
  /\ exists fuel0 listing,
       forall fuel,
         fuel0 <= fuel ->
         recursive_listdir fuel ToyFS.linked_tree (Path_of "foo") = Some listing
         /\ exists ok fs' trace,
              rmdirs ToyFS.sort fuel ToyFS.linked_tree (Path_of "foo") true
              = Some (ok, fs', trace)
              /\ Permutation (listing ++ [Path_of "foo"]) (map fst trace)
              /\ In (Path_of "foo") (map fst trace).
Proof.
  split; [exact linked_tree_listing_ends|].
  apply (rmdirs_ignore_errors_calls_every_entry
           ToyFS.sort ToyFS_sort_permutation ToyFS.linked_tree (Path_of "foo")
           linked_tree_listing_ends).
Defined.


Lemma rmdirs_unlistable_witness :
  os_readdir ToyFS.linked_tree
    (StdString.c_str (path (absolute ToyFS.linked_tree (Path_of "/w/foo/real/x"))))
  = None
  /\ recursive_listdir 1 ToyFS.linked_tree (Path_of "/w/foo/real/x") = Some []
  /\ rmdirs ToyFS.sort 1 ToyFS.linked_tree (Path_of "/w/foo/real/x") false
     = Some (let '(ok, fs') :=
               if is_directory ToyFS.linked_tree (Path_of "/w/foo/real/x")
               then os_rmdir ToyFS.linked_tree
                             (StdString.c_str (path (Path_of "/w/foo/real/x")))
               else os_unlink ToyFS.linked_tree
                              (StdString.c_str (path (Path_of "/w/foo/real/x"))) in
             (ok, fs', [(Path_of "/w/foo/real/x", ok)])).
Proof.
  split; [reflexivity|].
  apply (rmdirs_unlistable ToyFS.sort ToyFS_sort_permutation 0 ToyFS.linked_tree
           (Path_of "/w/foo/real/x") false).
  reflexivity.
Defined.

(** ** makedirs *)

Section MakeDirsFacts.

Context {FS : Type} `{OS FS}.

Variable os_mkdir : FS -> std_string -> nat -> option errno_t * FS.

(** [mkdir] on the root does not report a missing parent. *)
Hypothesis mkdir_root :
  forall fs mode, fst (os_mkdir fs (str "/") mode) <> Some ENOENT.

Lemma makedirs_unfold (fuel : nat) (fs : FS) (p : Path) (mode : nat) :
  makedirs os_mkdir fuel fs p mode
  = let abs := absolute fs (mkPath (path p)) in
    match makedir os_mkdir fs (StdString.c_str (path abs)) mode with
    | (None, fs) => Some (true, fs)
    | (Some EEXIST, fs) => Some (is_directory fs abs, fs)
    | (Some ENOENT, fs) =>
        match fuel with
        | 0 => None
        | S fuel' =>
            match makedirs os_mkdir fuel' fs (parent abs) mode with
            | None => None
            | Some (_, fs) =>
                match makedir os_mkdir fs (StdString.c_str (path abs)) mode with
                | (None, fs) => Some (true, fs)
                | (Some _, fs) => Some (false, fs)
                end
            end
        end
    | (Some EOTHER, fs) => Some (false, fs)
    end.
Proof. destruct fuel; reflexivity. Qed.

Lemma makedirs_retry (name : std_string) (mode : nat) (r : option (bool * FS)) :
  r <> None ->
  exists result,
    match r with
    | None => None
    | Some (_, fs) =>
        match makedir os_mkdir fs name mode with
        | (None, fs) => Some (true, fs)
        | (Some _, fs) => Some (false, fs)
        end
    end = Some result.
Proof.
  intros Hr. destruct r as [[b fs1]|]; [|congruence].
  destruct (makedir os_mkdir fs1 name mode) as [[e|] fs2]; eauto.
Qed.

Lemma makedirs_render (mode : nat) (fuel : nat) :
  forall (l : list Segment) (fs : FS),
    canonical false l -> List.length l <= fuel ->
    exists result,
      makedirs os_mkdir fuel fs (mkPath (render true true l)) mode = Some result.
Proof.
  induction fuel as [|fuel IH]; intros l fs Hc Hl; rewrite makedirs_unfold;
    cbn [path]; cbv zeta;
    rewrite (absolute_of_absolute fs _ (is_absolute_render true true l Hc));
    cbn [path];
    destruct (makedir os_mkdir fs (StdString.c_str (render true true l)) mode)
      as [[[| |]|] fs1] eqn:Em; eauto.
  - exfalso. destruct l; [|simpl in Hl; lia].
    apply (mkdir_root fs mode). unfold makedir in Em.
    change (StdString.c_str (render true true [])) with (str "/") in Em.
    rewrite Em. reflexivity.
  - destruct l as [|s l].
    + exfalso. apply (mkdir_root fs mode). unfold makedir in Em.
      change (StdString.c_str (render true true [])) with (str "/") in Em.
      rewrite Em. reflexivity.
    + rewrite parent_render_absolute by exact Hc.
      apply makedirs_retry.
      destruct (IH (removelast (s :: l)) fs1) as [result E].
      * apply canonical_absolute_removelast. exact Hc.
      * destruct (snoc_cases (s :: l)) as [E|[l' [x E]]]; [discriminate|].
        rewrite E in *. rewrite removelast_last.
        rewrite length_app in Hl. simpl in Hl. lia.
      * rewrite E. discriminate.
Qed.

(** X27. [makedirs] comes to an end on every path it makes absolute,
    provided [mkdir] never reports a missing parent for the root: its
    calls on parents are nested no deeper than the absolute path has
    characters. *)
Theorem makedirs_terminates (fuel : nat) (fs : FS) (p : Path) (mode : nat) :
  is_absolute (absolute fs p) = true ->
  StdString.size (path (absolute fs p)) < fuel ->
  exists result, makedirs os_mkdir fuel fs p mode = Some result.
Proof.
  intros Ha Hf. rewrite makedirs_unfold. cbv zeta.
  replace (mkPath (path p)) with p by (destruct p; reflexivity).
  set (abs := absolute fs p) in *.
  destruct (makedir os_mkdir fs (StdString.c_str (path abs)) mode)
    as [[[| |]|] fs1]; eauto.
  destruct fuel as [|fuel]; [lia|].
  rewrite parent_absolute by exact Ha.
  apply makedirs_retry.
  pose proof (prune_canonical false abs) as Hc.
  pose proof (prune_length false abs) as Hl.
  destruct (makedirs_render mode fuel (removelast (prune false (split abs))) fs1)
    as [result E].
  - apply canonical_absolute_removelast. exact Hc.
  - destruct (snoc_cases (prune false (split abs))) as [E|[l' [x E]]];
      rewrite E in *; [simpl; lia|].
    rewrite removelast_last. rewrite length_app in Hl. simpl in Hl. lia.
  - rewrite E. discriminate.
Qed.

End MakeDirsFacts.

Lemma ToyFS_mkdir_root (fs : ToyFS.fs) (mode : nat) :
  fst (ToyFS.mkdir fs (str "/") mode) <> Some ENOENT.
Proof. cbn. discriminate. Qed.

Lemma makedirs_terminates_witness :
  is_absolute (absolute ToyFS.linked_tree (Path_of "bar/baz/whiz")) = true
  /\ StdString.size (path (absolute ToyFS.linked_tree (Path_of "bar/baz/whiz"))) < 16
  /\ exists result,
       makedirs ToyFS.mkdir 16 ToyFS.linked_tree (Path_of "bar/baz/whiz") 511
       = Some result.
Proof.
  split; [reflexivity|]. split; [vm_compute; lia|].
  apply (makedirs_terminates ToyFS.mkdir ToyFS_mkdir_root 16 ToyFS.linked_tree
           (Path_of "bar/baz/whiz") 511); [reflexivity|vm_compute; lia].
Defined.

(** ** How many segments split returns *)

Lemma count_occ_sep_free (s : std_string) :
  sep_free s -> count_occ ascii_dec s separator = 0.
Proof. intros Hs. apply count_occ_not_In. exact Hs. Qed.

Lemma split_count_length (n : nat) :
  forall x : std_string,
    List.length x <= n -> x <> [] ->
    List.length (split (mkPath x)) = S (count_occ ascii_dec x separator).
Proof.
  induction n as [|n IH]; intros x Hn Hx.
  - destruct x; [congruence|simpl in Hn; lia].
  - pose proof (getline_chars_cases x) as [Hf Hc].
    pose proof (getline_chars_rest_length x) as Hl.
    destruct (getline_chars x) as [s rest]. cbn [fst snd] in *.
    destruct Hc as [Hc|[Hc ->]]; rewrite Hc.
    + rewrite split_first_segment by exact Hf.
      rewrite count_occ_app, (count_occ_sep_free s Hf).
      cbn [count_occ]. destruct (ascii_dec separator separator); [|congruence].
      destruct rest as [|d rest]; [reflexivity|].
      cbn [List.length Nat.add]. f_equal. apply IH; [|discriminate].
      destruct x; [congruence|]. simpl in *. lia.
    + rewrite split_single_segment by (exact Hf || (rewrite <- Hc; exact Hx)).
      rewrite (count_occ_sep_free s Hf). reflexivity.
Qed.

(** X28. [split] cuts at every separator: a non-empty path gives one
    segment more than it has separators, none of the segments holds a
    separator, and the empty path gives no segment at all. *)
Theorem split_count (p : Path) :
  (path p <> [] ->
   List.length (split p) = S (count_occ ascii_dec (path p) separator))
  /\ Forall (fun s => sep_free (segment s)) (split p)
  /\ split (mkPath []) = [].
Proof.
  split; [|split; [apply split_sep_free|reflexivity]].
  intros Hp. destruct p as [x]. cbn [path] in *.
  apply (split_count_length (List.length x)); [apply le_n|exact Hp].
Qed.

(** ** More checks against test.cpp *)

Example test_extension :
  map (fun s => string_of_list_ascii (extension (Path_of s)))
      ["foo/bar/baz.out"; "foo/bar.baz.out"; "foo/bar.baz/out"]%string
  = ["out"; "out"; ""]%string.
Proof. reflexivity. Qed.

Example test_stem :
  map (fun s => Path_string (stem (Path_of s)))
      ["foo/bar/baz.out"; "foo/bar.baz.out"; "foo/bar.baz/out";
       "foo.bar.baz.out"; "foo.bar.baz"; "foo.bar"; "foo"]%string
  = ["foo/bar/baz"; "foo/bar.baz"; "foo/bar.baz/out";
     "foo.bar.baz"; "foo.bar"; "foo"; "foo"]%string.
Proof. reflexivity. Qed.

Example test_equivalent :
  equivalent ToyFS.linked_tree (Path_of "foo////a/b/../c/") (Path_of "foo/a/c/") = true
  /\ equivalent ToyFS.linked_tree (Path_of "../foo/bar/")
       (directory (append (append (parent (cwd ToyFS.linked_tree)) (Path_of "foo"))
                          (Path_of "bar"))) = true.
Proof. split; reflexivity. Qed.

Example test_makedirs_rmdirs :
  let fs0 := ToyFS.mkFs (str "/w") [(str "/w", ToyFS.Dir)] in
  let p := Path_of "foo/bar/baz/whiz" in
  match makedirs ToyFS.mkdir 20 fs0 p 511 with
  | Some (made, fs1) =>
      made = true
      /\ is_directory fs1 p = true
      /\ match rmdirs ToyFS.sort 20 fs1 (Path_of "foo") false with
         | Some (ok, fs2, _) =>
             ok = true /\ os_stat fs2 (str "foo") = None /\ fs2 = fs0
         | None => False
         end
  | None => False
  end.
Proof. vm_compute. repeat split. Qed.


